(** * Row enrichment pipeline (ip.py): model and verification

    The program reads the rows of a CSV file, looks up a [gid] and an [eid]
    for each row through one shared PostgreSQL cursor, from the workers of a
    thread pool, and writes the enriched rows to another CSV file.

    The development follows the layout of the source:
    - Python values, dictionaries (insertion ordered) and exceptions;
    - [PostgreSQLDatabase]: the connection, its single cursor, [execute_query];
    - [CSVFileReader] / [CSVFileWriter], over a file seen as its rows of fields;
    - [DataProcessor]: [process_row] as a program over the shared heap of row
      objects and the shared cursor, the thread pool as an interleaving of
      the atomic steps of such programs, and [process_data]. *)

From stdpp Require Import base option list strings.

Open Scope string_scope.
Open Scope list_scope.
Open Scope nat_scope.

(** ** Python values and dictionaries *)

(** The values a row can hold: [None], a string, or a list of strings (the
    value [csv.DictReader] stores under its rest key for a row that is longer
    than the header). *)
Inductive pyval : Type :=
| PNone
| PStr (s : string)
| PList (l : list string).

#[global] Instance pyval_eq_dec : EqDecision pyval.
Proof. solve_decision. Defined.

(** Keys of a row: the strings of the header, or [None] ([DictReader]'s
    default rest key). *)
Abbreviation key := (option string).

(** A [dict]: keys in insertion order, each key once. *)
Abbreviation dict := (list (key * pyval)).

Definition keys (d : dict) : list key := d.*1.

(** [k in d.keys()] well-formedness of the representation. *)
Definition dict_wf (d : dict) : Prop := NoDup (keys d).

Fixpoint dict_lookup (k : key) (d : dict) : option pyval :=
  match d with
  | [] => None
  | (k', v) :: d' => if decide (k' = k) then Some v else dict_lookup k d'
  end.

(** [d.get(k, dflt)] *)
Definition dict_get (d : dict) (k : key) (dflt : pyval) : pyval :=
  default dflt (dict_lookup k d).

(** [d[k] = v]: an existing key keeps its position, a new key goes last. *)
Fixpoint dict_set (k : key) (v : pyval) (d : dict) : dict :=
  match d with
  | [] => [(k, v)]
  | (k', v') :: d' =>
      if decide (k' = k) then (k', v) :: d' else (k', v') :: dict_set k v d'
  end.

(** [dict(pairs)] *)
Definition dict_of_pairs (l : list (key * pyval)) : dict :=
  foldl (fun d kv => dict_set kv.1 kv.2 d) [] l.

(** Truth value of a value in a condition ([if input_gid]). *)
Definition truthy (v : pyval) : bool :=
  match v with
  | PNone => false
  | PStr s => negb (String.eqb s "")
  | PList l => negb (bool_decide (l = []))
  end.

(** Exceptions. [InvalidRef] is the model's own: a reference to a row object
    that is not on the heap, which Python cannot build. *)
Inductive exn : Type :=
| DatabaseError (msg : string)
| ProgrammingError (msg : string)
| ValueError (msg : string)
| FileNotFoundError
| InvalidRef.

#[global] Instance exn_eq_dec : EqDecision exn.
Proof. solve_decision. Defined.

(** ** Configuration *)

Definition GID_QUERY : string := "SELECT gid FROM your_table WHERE some_column = %s".
Definition EID_QUERY : string := "SELECT eid FROM your_table WHERE another_column = %s".
Definition MAX_WORKERS : nat := 5.

(** ** Programs over the shared objects

    A row is a mutable object: programs name it by reference and the heap
    holds its current contents.  The cursor of the connection is the other
    shared object.  A program is the tree of the atomic operations it performs
    on them; the operations of different threads interleave. *)

Abbreviation ref := nat.
Abbreviation heap := (list dict).

(** A row of a result set: its columns, text or NULL. *)
Abbreviation db_row := (list (option string)).

Definition of_column (c : option string) : pyval :=
  match c with
  | Some s => PStr s
  | None => PNone
  end.

Inductive prog (A : Type) : Type :=
| Ret (a : A)
| RowGet (row : ref) (k : key) (cont : pyval → prog A)
| RowSet (row : ref) (k : key) (v : pyval) (cont : prog A)
| CursorExecute (query : string) (param : pyval) (cont : prog A)
| CursorFetchone (cont : option db_row → prog A).

Arguments Ret {A} a.
Arguments RowGet {A} row k cont.
Arguments RowSet {A} row k v cont.
Arguments CursorExecute {A} query param cont.
Arguments CursorFetchone {A} cont.

Fixpoint bind {A B : Type} (f : A → prog B) (m : prog A) : prog B :=
  match m with
  | Ret a => f a
  | RowGet row k cont => RowGet row k (fun v => bind f (cont v))
  | RowSet row k v cont => RowSet row k v (bind f cont)
  | CursorExecute q p cont => CursorExecute q p (bind f cont)
  | CursorFetchone cont => CursorFetchone (fun r => bind f (cont r))
  end.

#[global] Instance prog_ret : MRet prog := @Ret.
#[global] Instance prog_bind : MBind prog := @bind.

(** [row.get(k)] *)
Definition row_get (row : ref) (k : string) : prog pyval :=
  RowGet row (Some k) Ret.

(** [row[k] = v] *)
Definition row_set (row : ref) (k : string) (v : pyval) : prog unit :=
  RowSet row (Some k) v (Ret tt).

(** *** PostgreSQLDatabase.execute_query

    [self.cursor.execute(query, (param,)); result = self.cursor.fetchone();
     return result[0] if result else None]: two operations on the cursor.
    A result row with no column is an empty tuple, which is false. *)
Definition execute_query (query : string) (param : pyval) : prog pyval :=
  CursorExecute query param
    (CursorFetchone (fun result =>
       Ret (match result with
            | Some (c :: _) => of_column c
            | Some [] | None => PNone
            end))).

(** *** DataProcessor.process_row *)
Definition process_row (row : ref) : prog ref :=
  input_gid ← row_get row "input_gid";
  input_eid ← row_get row "input_eid";
  gid ← (if truthy input_gid then execute_query GID_QUERY input_gid else Ret PNone);
  eid ← (if truthy input_eid then execute_query EID_QUERY input_eid else Ret PNone);
  row_set row "gid" gid;;
  row_set row "eid" eid;;
  Ret row.

(** How a call ends. *)
Inductive outcome (A : Type) : Type :=
| Returned (a : A)
| Raised (e : exn).

Arguments Returned {A} a.
Arguments Raised {A} e.

(** A future of the executor, with the program of its call: waiting for a
    worker, being run by one, or done. *)
Inductive future : Type :=
| Pending (p : prog ref)
| Running (p : prog ref)
| Finished (o : outcome ref).

(** ** The database behind the connection

    What the server answers to a statement: a result set or an error.  It may
    depend on the state of the session (an aborted transaction, earlier
    statements); a store whose answer depends on the statement only is
    [deterministic_store]. *)
Class Database : Type := {
  session : Type;
  server : session → string → pyval → session * (list db_row + exn);
}.

Definition deterministic_store (DB : Database) : Prop :=
  ∃ answer : string → pyval → list db_row + exn,
    ∀ s q p, (server s q p).2 = answer q p.

Section Pipeline.
Context {DB : Database}.

(** [PostgreSQLDatabase]: one connection, one cursor.  The cursor holds the
    rows of the last statement that are still to fetch ([None]: no result
    set).  [issued] records the statements sent, oldest first. *)
Record connection : Type := Connection {
  conn : session;
  cursor : option (list db_row);
  issued : list (string * pyval);
}.

(** [cursor.execute(query, (param,))]: drops the previous result set, sends
    the statement, keeps the new result set or raises the server's error. *)
Definition cursor_execute (c : connection) (query : string) (param : pyval)
  : connection * option exn :=
  let (s', answer) := server (conn c) query param in
  let sent := issued c ++ [(query, param)] in
  match answer with
  | inl rows => (Connection s' (Some rows) sent, None)
  | inr e => (Connection s' None sent, Some e)
  end.

(** [cursor.fetchone()]: the next row of the result set, [None] when it is
    exhausted; with no result set it raises. *)
Definition cursor_fetchone (c : connection) : connection * (option db_row + exn) :=
  match cursor c with
  | None => (c, inr (ProgrammingError "no results to fetch"))
  | Some [] => (c, inl None)
  | Some (r :: rs) => (Connection (conn c) (Some rs) (issued c), inl (Some r))
  end.

(** The shared state: the row objects and the connection. *)
Record world : Type := World {
  rows_of : heap;
  db_of : connection;
}.

(** One atomic operation of a program: either the rest of the program or its
    outcome. *)
Definition step_prog {A : Type} (p : prog A) (w : world) : world * (prog A + outcome A) :=
  match p with
  | Ret a => (w, inr (Returned a))
  | RowGet row k cont =>
      match rows_of w !! row with
      | Some d => (w, inl (cont (dict_get d k PNone)))
      | None => (w, inr (Raised InvalidRef))
      end
  | RowSet row k v cont =>
      match rows_of w !! row with
      | Some d => (World (<[row := dict_set k v d]> (rows_of w)) (db_of w), inl cont)
      | None => (w, inr (Raised InvalidRef))
      end
  | CursorExecute q param cont =>
      match cursor_execute (db_of w) q param with
      | (c', None) => (World (rows_of w) c', inl cont)
      | (c', Some e) => (World (rows_of w) c', inr (Raised e))
      end
  | CursorFetchone cont =>
      match cursor_fetchone (db_of w) with
      | (c', inl r) => (World (rows_of w) c', inl (cont r))
      | (c', inr e) => (World (rows_of w) c', inr (Raised e))
      end
  end.

(** A call that runs alone: the operations of the program one after the
    other, up to its return or to the first exception. *)
Fixpoint run {A : Type} (p : prog A) (w : world) : world * outcome A :=
  match p with
  | Ret a => (w, Returned a)
  | RowGet row k cont =>
      match rows_of w !! row with
      | Some d => run (cont (dict_get d k PNone)) w
      | None => (w, Raised InvalidRef)
      end
  | RowSet row k v cont =>
      match rows_of w !! row with
      | Some d => run cont (World (<[row := dict_set k v d]> (rows_of w)) (db_of w))
      | None => (w, Raised InvalidRef)
      end
  | CursorExecute q param cont =>
      match cursor_execute (db_of w) q param with
      | (c', None) => run cont (World (rows_of w) c')
      | (c', Some e) => (World (rows_of w) c', Raised e)
      end
  | CursorFetchone cont =>
      match cursor_fetchone (db_of w) with
      | (c', inl r) => run (cont r) (World (rows_of w) c')
      | (c', inr e) => (World (rows_of w) c', Raised e)
      end
  end.

(** ** The thread pool

    [executor.submit(self.process_row, row)] makes a future.  A worker takes
    the oldest pending future when fewer than [max_workers] are running, and
    runs its program; the operations of the running futures interleave in any
    order.  The scheduler is an argument: at each step a number picks one of
    the futures that can move. *)
Record pool : Type := Pool {
  shared : world;
  futures : list future;
}.

Definition is_running (f : future) : Prop :=
  match f with Running _ => True | _ => False end.
Definition is_pending (f : future) : Prop :=
  match f with Pending _ => True | _ => False end.
Definition is_finished (f : future) : Prop :=
  match f with Finished _ => True | _ => False end.

#[global] Instance is_running_dec f : Decision (is_running f).
Proof. destruct f; apply _. Defined.
#[global] Instance is_pending_dec f : Decision (is_pending f).
Proof. destruct f; apply _. Defined.
#[global] Instance is_finished_dec f : Decision (is_finished f).
Proof. destruct f; apply _. Defined.

Definition running_count (fs : list future) : nat := length (filter is_running fs).

Definition running_at (fs : list future) (i : nat) : Prop :=
  match fs !! i with
  | Some f => is_running f
  | None => False
  end.

#[global] Instance running_at_dec fs i : Decision (running_at fs i).
Proof. unfold running_at. destruct (fs !! i); apply _. Defined.

(** The futures that can move: the running ones, and the oldest pending one
    when a worker is free. *)
Definition runnable (max_workers : nat) (fs : list future) : list nat :=
  filter (running_at fs) (seq 0 (length fs))
  ++ (if decide (running_count fs < max_workers)
      then match list_find is_pending fs with
           | Some (i, _) => [i]
           | None => []
           end
      else []).

Definition step_future (i : nat) (st : pool) : pool :=
  match futures st !! i with
  | Some (Pending p) => Pool (shared st) (<[i := Running p]> (futures st))
  | Some (Running p) =>
      match step_prog p (shared st) with
      | (w', inl p') => Pool w' (<[i := Running p']> (futures st))
      | (w', inr o) => Pool w' (<[i := Finished o]> (futures st))
      end
  | Some (Finished _) | None => st
  end.

Definition pool_step (max_workers : nat) (pick : nat) (st : pool) : pool :=
  match runnable max_workers (futures st) with
  | [] => st
  | (i0 :: _) as candidates =>
      step_future (nth (pick mod length candidates) candidates i0) st
  end.

(** [fuel] steps of the pool under the schedule [sched]; once the schedule
    is used up the first candidate moves. *)
Fixpoint run_pool (max_workers : nat) (sched : list nat) (fuel : nat) (st : pool) : pool :=
  match fuel with
  | 0 => st
  | S fuel' =>
      run_pool max_workers (tail sched) fuel' (pool_step max_workers (hd 0 sched) st)
  end.

(** [future.result()] for each future in submission order: the returned row
    is appended to [results], an exception is reported with the row of the
    future ([future_to_row[future]]).  A future that has not finished has no
    result yet. *)
Fixpoint fan_in (i : nat) (fs : list future) : option (list ref * list (ref * exn)) :=
  match fs with
  | [] => Some ([], [])
  | f :: fs' =>
      match f, fan_in (S i) fs' with
      | Finished (Returned row), Some (results, failures) => Some (row :: results, failures)
      | Finished (Raised e), Some (results, failures) => Some (results, (i, e) :: failures)
      | _, _ => None
      end
  end.

End Pipeline.

(** ** CSV files

    A file is seen as the rows [csv.reader] yields from it and [csv.writer]
    puts into it: lists of fields.  Quoting and line ends are the [csv]
    module's and are not modelled. *)
Abbreviation csv_file := (list (list string)).

(** The texts Python makes of values, which are its own matter:
    [str_of_list l] is [str(l)] for a list of strings, which [csv.writer]
    applies to a field that is a list; [repr_fields ks] is
    [", ".join([repr(x) for x in wrong_fields])] for the set [wrong_fields]
    of the keys [ks], which [csv.DictWriter] puts in its error. *)
Class PyStr : Type := {
  str_of_list : list string → string;
  repr_fields : list key → string;
}.

Inductive message : Type :=
| No_data_to_write
| Error_processing_row (row : dict) (e : exn).

(** The field [csv.writer] writes for a value: [None] is the empty field. *)
Definition csv_field `{PyStr} (v : pyval) : string :=
  match v with
  | PNone => ""
  | PStr s => s
  | PList l => str_of_list l
  end.

Definition csv_key (k : key) : string :=
  match k with
  | Some s => s
  | None => ""
  end.

(** *** csv.DictReader *)

(** The dictionary of one row of fields under the header [fieldnames]:
    missing fields are [None], extra fields go as a list under [None]. *)
Definition DictReader_row (fieldnames row : list string) : dict :=
  let d := dict_of_pairs (zip (Some <$> fieldnames) (PStr <$> row)) in
  let lf := length fieldnames in
  let lr := length row in
  if decide (lf < lr) then dict_set None (PList (drop lf row)) d
  else if decide (lr < lf)
       then foldl (fun d k => dict_set (Some k) PNone d) d (drop lr fieldnames)
       else d.

(** The first row is the header; rows without any field are skipped. *)
Definition DictReader (f : csv_file) : list dict :=
  match f with
  | [] => []
  | fieldnames :: lines =>
      DictReader_row fieldnames <$> filter (λ row, row ≠ []) lines
  end.

(** *** csv.DictWriter *)

(** The fields written for a row under the header [fieldnames]:
    [rowdict.get(key, "")] for each key. *)
Definition row_fields `{PyStr} (fieldnames : list key) (rowdict : dict) : list string :=
  (λ k, csv_field (dict_get rowdict k (PStr ""))) <$> fieldnames.

(** [_dict_to_list]: with [wrong_fields = rowdict.keys() - self.fieldnames]
    not empty it raises [ValueError("dict contains fields not in fieldnames: "
    + ", ".join([repr(x) for x in wrong_fields]))]; a field the row lacks is
    written as the empty string. *)
Definition DictWriter_dict_to_list `{PyStr} (fieldnames : list key) (rowdict : dict)
  : list string + exn :=
  match filter (λ k, k ∉ fieldnames) (keys rowdict) with
  | [] => inl (row_fields fieldnames rowdict)
  | (_ :: _) as wrong_fields =>
      inr (ValueError ("dict contains fields not in fieldnames: "
                       +:+ repr_fields wrong_fields))
  end.

(** [writerows]: the rows in order, up to the first one that raises. *)
Fixpoint DictWriter_writerows `{PyStr} (fieldnames : list key) (data : list dict)
    (written : csv_file) : csv_file * option exn :=
  match data with
  | [] => (written, None)
  | rowdict :: data' =>
      match DictWriter_dict_to_list fieldnames rowdict with
      | inl fields => DictWriter_writerows fieldnames data' (written ++ [fields])
      | inr e => (written, Some e)
      end
  end.

(** ** The interfaces of the reader and of the writer

    [R] and [Wr] are what the object reads from and writes to.  A reader
    gives the rows of its source, or the exception raised when it is opened;
    a writer gives the new state of its destination, what it prints and the
    exception it raises, if any. *)
Class ICSVReader (R : Type) : Type :=
  read_rows : R → list dict + exn.

Class ICSVWriter (Wr : Type) : Type :=
  write_rows : list dict → Wr → Wr * list message * option exn.

(** [CSVFileReader]: the file at [file_path], [None] when there is none. *)
#[global] Instance CSVFileReader : ICSVReader (option csv_file) :=
  λ file,
    match file with
    | None => inr FileNotFoundError
    | Some f => inl (DictReader f)
    end.

(** [CSVFileWriter]: without data the file is left alone; otherwise it is
    opened for writing (emptied), and gets the header, the keys of the first
    row, and the rows. *)
#[global] Instance CSVFileWriter `{PyStr} : ICSVWriter (option csv_file) :=
  λ data file,
    match data with
    | [] => (file, [No_data_to_write], None)
    | first :: _ =>
        let fieldnames := keys first in
        let header := csv_key <$> fieldnames in
        let (written, e) := DictWriter_writerows fieldnames data [header] in
        (Some written, [], e)
    end.

(** A writer that only records the calls it gets. *)
Definition RecordingWriter : ICSVWriter (list (list dict)) :=
  λ data calls, (calls ++ [data], [], None).

(** ** DataProcessor *)

Record DataProcessor {DB : Database} (R Wr : Type) : Type := {
  db : connection;
  reader : R;
  writer : Wr;
}.

Arguments db {DB R Wr} _.
Arguments reader {DB R Wr} _.
Arguments writer {DB R Wr} _.

(** What a call to [process_data] leaves: the connection, the row objects,
    the futures, [results], the failures reported, what was printed, the
    state of the writer, and the exception that ended the call, if any. *)
Record completed {DB : Database} (Wr : Type) : Type := Completed {
  end_db : connection;
  end_rows : heap;
  end_futures : list future;
  results : list ref;
  failures : list (ref * exn);
  stdout : list message;
  end_writer : Wr;
  raised : option exn;
}.

Arguments Completed {DB Wr} _ _ _ _ _ _ _ _.
Arguments end_db {DB Wr} _.
Arguments end_rows {DB Wr} _.
Arguments end_futures {DB Wr} _.
Arguments results {DB Wr} _.
Arguments failures {DB Wr} _.
Arguments stdout {DB Wr} _.
Arguments end_writer {DB Wr} _.
Arguments raised {DB Wr} _.

(** [print(f"Error processing row {future_to_row[future]}: {e}")]: the
    line printed for a failure, with the contents of the row. *)
Definition report (rows : heap) (failure : ref * exn) : option message :=
  d ← rows !! failure.1; Some (Error_processing_row d failure.2).

Section Process_data.
Context {DB : Database} {R Wr : Type} `{!ICSVReader R, !ICSVWriter Wr}.

(** The futures of [{executor.submit(self.process_row, row): row for row in
    rows}]: row [i] of the reader is object [i] of the heap. *)
Definition submit_all (rows : list dict) : list future :=
  imap (λ i _, Pending (process_row i)) rows.

(** Steps that are enough for the pool to finish [n] futures. *)
Definition pool_fuel (n : nat) : nat := 10 * n.

Definition process_data (max_workers : nat) (sched : list nat)
    (self : DataProcessor R Wr) : option (completed Wr) :=
  if decide (max_workers = 0)
  then Some (Completed (db self) [] [] [] [] [] (writer self)
               (Some (ValueError "max_workers must be greater than 0")))
  else
    match read_rows (reader self) with
    | inr e => Some (Completed (db self) [] [] [] [] [] (writer self) (Some e))
    | inl rows =>
        let st := run_pool max_workers sched (pool_fuel (length rows))
                    (Pool (World rows (db self)) (submit_all rows)) in
        let w := shared st in
        '(results, failures) ← fan_in 0 (futures st);
        errors ← mapM (report (rows_of w)) failures;
        data ← mapM (λ row, rows_of w !! row) results;
        let '(wr, printed, e) := write_rows data (writer self) in
        Some (Completed (db_of w) (rows_of w) (futures st) results failures
                (errors ++ printed) wr e)
    end.

End Process_data.

(** ** Notions used in the statements *)

(** What [execute_query] makes of a result set: the first column of the first
    row, [None] without a row (or without a column). *)
Definition first_column (rows : list db_row) : pyval :=
  match rows with
  | (c :: _) :: _ => of_column c
  | [] :: _ | [] => PNone
  end.

(** The fields of a row other than the two that enrichment sets, in order. *)
Definition other_fields (d : dict) : dict :=
  filter (λ kv, kv.1 ≠ Some "gid" ∧ kv.1 ≠ Some "eid") d.

(** One optional lookup of [process_row]:
    [self.db.execute_query(query, value) if value else None]. *)
Definition lookup_if_present (query : string) (input : pyval) : prog pyval :=
  if truthy input then execute_query query input else Ret PNone.

(** The lookups a row asks for: one per source field that is present and
    not empty, [gid] first. *)
Definition lookups_of (d : dict) : list (string * pyval) :=
  (if truthy (dict_get d (Some "input_gid") PNone)
   then [(GID_QUERY, dict_get d (Some "input_gid") PNone)] else [])
  ++ (if truthy (dict_get d (Some "input_eid") PNone)
      then [(EID_QUERY, dict_get d (Some "input_eid") PNone)] else []).

(** A source field that is missing or empty. *)
Definition missing_or_empty (d : dict) (k : string) : Prop :=
  truthy (dict_get d (Some k) PNone) = false.

(** The statements a call has sent: what [issued] gained. *)
Definition sent_by {DB : Database} (before after : connection)
    (calls : list (string * pyval)) : Prop :=
  issued after = issued before ++ calls.



(** The call for record [i] has returned. *)
Definition succeeded (fs : list future) (i : nat) : Prop :=
  match fs !! i with
  | Some (Finished (Returned _)) => True
  | _ => False
  end.

#[global] Instance succeeded_dec fs i : Decision (succeeded fs i).
Proof. unfold succeeded. destruct (fs !! i) as [[p|p|[row|e]]|]; apply _. Defined.

(** A future whose worker is inside [execute_query]: the statement is sent
    and its row is not fetched yet. *)
Definition in_lookup (f : future) : Prop :=
  match f with
  | Running (CursorFetchone _) => True
  | _ => False
  end.

#[global] Instance in_lookup_dec f : Decision (in_lookup f).
Proof. destruct f as [p|p|o]; try apply _. destruct p; apply _. Defined.

(** Store access is serialized in a state of the pool when at most one
    worker is inside [execute_query]. *)
Definition serialized (fs : list future) : Prop :=
  length (filter in_lookup fs) ≤ 1.

(** *** Invariants of the pool *)

(** All the row operations of [p] are on row [i], and [p] returns [i]. *)
Fixpoint owns (i : ref) (p : prog ref) : Prop :=
  match p with
  | Ret a => a = i
  | RowGet row _ cont => row = i ∧ ∀ v, owns i (cont v)
  | RowSet row _ _ cont => row = i ∧ owns i cont
  | CursorExecute _ _ cont => owns i cont
  | CursorFetchone cont => ∀ r, owns i (cont r)
  end.

(** [p] is done within [n] steps, its return included. *)
Fixpoint within (n : nat) (p : prog ref) : Prop :=
  match n with
  | 0 => False
  | S n' =>
      match p with
      | Ret _ => True
      | RowGet _ _ cont => ∀ v, within n' (cont v)
      | RowSet _ _ _ cont => within n' cont
      | CursorExecute _ _ cont => within n' cont
      | CursorFetchone cont => ∀ r, within n' (cont r)
      end
  end.

Definition future_owns (i : ref) (f : future) : Prop :=
  match f with
  | Pending p | Running p => owns i p
  | Finished (Returned row) => row = i
  | Finished (Raised _) => True
  end.

(** The steps future [f] still takes are at most [b]. *)
Definition future_within (b : nat) (f : future) : Prop :=
  match f with
  | Pending p => match b with 0 => False | S b' => within b' p end
  | Running p => within b p
  | Finished _ => True
  end.

(** The steps the futures [fs] still take are at most [m] in all. *)
Inductive pool_within : list future → nat → Prop :=
| pool_within_nil : pool_within [] 0
| pool_within_cons f fs b m :
    future_within b f → pool_within fs m → pool_within (f :: fs) (b + m).

(** What a step of future [f] puts in its place, in the world [w]. *)
Definition moved {DB : Database} (w : world) (f : future) : future :=
  match f with
  | Pending p => Running p
  | Running p =>
      match (step_prog p w).2 with
      | inl p' => Running p'
      | inr o => Finished o
      end
  | Finished o => Finished o
  end.

(** With [n] rows: [n] futures, [n] row objects, future [i] works on row
    [i]. *)
Definition pool_inv {DB : Database} (n : nat) (st : pool) : Prop :=
  length (futures st) = n
  ∧ length (rows_of (shared st)) = n
  ∧ ∀ i f, futures st !! i = Some f → future_owns i f.

(** The futures [fs] are those of rows [i], [i + 1], ... *)
Definition owned_from (i : nat) (fs : list future) : Prop :=
  ∀ j f, fs !! j = Some f → future_owns (i + j) f.

(** *** A sample store, sample rows

    Key ["a"] has value ["1"], key ["b"] value ["2"], key ["boom"] makes the
    server fail, any other key has no row. *)
Definition sample_answer (q : string) (p : pyval) : list db_row + exn :=
  if decide (p = PStr "a") then inl [[Some "1"]]
  else if decide (p = PStr "b") then inl [[Some "2"]]
  else if decide (p = PStr "boom") then inr (DatabaseError "boom")
  else inl [].

Definition sample_db : Database :=
  {| session := unit; server := λ s q p, (s, sample_answer q p) |}.

(** [repr] of a key whose text has no quote and no escape; the sample takes
    the keys of [wrong_fields] in the order of the row. *)
Definition sample_repr (k : key) : string :=
  match k with
  | Some s => "'" +:+ s +:+ "'"
  | None => "None"
  end.

Definition sample_str : PyStr :=
  {| str_of_list := λ l, String.concat "," l;
     repr_fields := λ ks, String.concat ", " (sample_repr <$> ks) |}.

Definition fresh_connection : @connection sample_db :=
  @Connection sample_db tt None [].

Definition row_a : dict := [(Some "input_gid", PStr "a"); (Some "input_eid", PStr "")].
Definition row_b : dict := [(Some "input_gid", PStr "b"); (Some "input_eid", PStr "")].
Definition row_boom : dict := [(Some "input_gid", PStr "boom"); (Some "input_eid", PStr "a")].
Definition row_none : dict := [(Some "name", PStr "x"); (Some "input_eid", PStr "")].

Definition row_enriched : dict :=
  [(Some "input_gid", PStr "a"); (Some "gid", PStr "1"); (Some "eid", PNone)].

(** A reader that yields given rows. *)
Definition RowsReader : ICSVReader (list dict) := inl.

Definition sample_processor (rows : list dict)
  : @DataProcessor sample_db (list dict) (option csv_file) :=
  {| db := fresh_connection; reader := rows; writer := None |}.

Definition sample_run (max_workers : nat) (sched : list nat) (rows : list dict)
  : option (@completed sample_db (option csv_file)) :=
  @process_data sample_db (list dict) (option csv_file) RowsReader
    (@CSVFileWriter sample_str) max_workers sched (sample_processor rows).

(** The pool of [process_data] for the rows [rows], before its first step. *)
Definition sample_pool (rows : list dict) : @pool sample_db :=
  Pool (World rows fresh_connection) (submit_all rows).

(** A schedule of three workers in which the three calls are started and
    the call for the third record is run to its end before the first two go
    on. *)
Definition last_first_schedule : list nat := [0; 1; 2; 2; 2; 2; 2; 2; 2; 2].

(** A schedule of two workers in which the first sends its statement, then
    the second sends its own, and only then each fetches. *)
Definition racy_schedule : list nat := [0; 0; 0; 0; 1; 1; 1; 1; 0].

(** ** More notions, for the rest of the code *)

(** A row that [DictWriter] accepts under the header [fieldnames]: it has no
    key outside of it. *)
Definition fits (fieldnames : list key) (rowdict : dict) : Prop :=
  keys rowdict ⊆ fieldnames.

(** The keys of a row that are not in [fieldnames]. *)
Definition unknown_fields (fieldnames : list key) (rowdict : dict) : list key :=
  filter (λ k, k ∉ fieldnames) (keys rowdict).

(** The error of [DictWriter] for a row with such keys. *)
Definition unknown_fields_error `{PyStr} (fieldnames : list key) (rowdict : dict) : exn :=
  ValueError ("dict contains fields not in fieldnames: "
              +:+ repr_fields (unknown_fields fieldnames rowdict)).

Definition row_extra : dict :=
  [(Some "input_gid", PStr "c"); (Some "gid", PNone); (Some "eid", PNone);
   (None, PList ["x"])].

(** The row read from a line under a header of distinct names: the names
    with the fields of the line, in the order of the header; a short line is
    filled up with [None], the surplus of a long line goes, as a list, under
    the key [None]. *)
Definition row_of_line (header line : list string) : dict :=
  if decide (length line ≤ length header)
  then zip (Some <$> header)
         ((PStr <$> line) ++ replicate (length header - length line) PNone)
  else zip (Some <$> header) (PStr <$> line)
       ++ [(None, PList (drop (length header) line))].

(** The keys of a row once enriched: those it had, then ["gid"] and ["eid"]
    for as far as it had not got them. *)
Definition enriched_keys (ks : list key) : list key :=
  ks ++ (if decide (Some "gid" ∈ ks) then [] else [Some "gid"])
     ++ (if decide (Some "eid" ∈ ks) then [] else [Some "eid"]).

(** *** How far a call of [process_row] has got with its row *)

(** The row is as it was read, or has its [gid] set, or both fields set. *)
Inductive phase : Type :=
| Reading
| GidSet (gid : pyval)
| BothSet (gid eid : pyval).

(** The contents of the row object in a phase, [d] being what was read. *)
Definition cell_of (d : dict) (ph : phase) : dict :=
  match ph with
  | Reading => d
  | GidSet gid => dict_set (Some "gid") gid d
  | BothSet gid eid => dict_set (Some "eid") eid (dict_set (Some "gid") gid d)
  end.

(** [stage d ph l p]: the program [p] is what is left of a call for the row
    read as [d], in phase [ph]: it reads the row while the row is as read,
    sends the statements [l], in this order, while the row is as read, then
    sets [gid], then [eid], and returns. *)
Fixpoint stage (d : dict) (ph : phase) (l : list (string * pyval)) (p : prog ref) : Prop :=
  match p with
  | Ret _ => (∃ gid eid, ph = BothSet gid eid) ∧ l = []
  | RowGet _ k cont => ph = Reading ∧ stage d Reading l (cont (dict_get d k PNone))
  | RowSet _ k v cont =>
      (ph = Reading ∧ k = Some "gid" ∧ stage d (GidSet v) l cont)
      ∨ (∃ gid, ph = GidSet gid ∧ k = Some "eid" ∧ stage d (BothSet gid v) l cont)
  | CursorExecute q x cont =>
      ph = Reading ∧ ∃ l', l = (q, x) :: l' ∧ stage d Reading l' cont
  | CursorFetchone cont => ph = Reading ∧ ∀ r, stage d Reading l (cont r)
  end.

(** The same for a future: one that returned has both fields set and has sent
    all its statements; one that raised has left the row as read. *)
Definition future_stage (d : dict) (ph : phase) (l : list (string * pyval))
    (f : future) : Prop :=
  match f with
  | Pending p | Running p => stage d ph l p
  | Finished (Returned _) => (∃ gid eid, ph = BothSet gid eid) ∧ l = []
  | Finished (Raised _) => ph = Reading
  end.

(** The rows read, the row objects and the futures, one by one, with the
    statements still to send. *)
Inductive pool_stage :
  list dict → heap → list future → list (string * pyval) → Prop :=
| pool_stage_nil : pool_stage [] [] [] []
| pool_stage_cons d ph l f rows cells fs rest :
    future_stage d ph l f → pool_stage rows cells fs rest →
    pool_stage (d :: rows) (cell_of d ph :: cells) (f :: fs) (l ++ rest).

(** What has been sent since [before], and what is still to send, are the
    lookups the rows ask for. *)
Definition stage_inv {DB : Database} (rows : list dict)
    (before : list (string * pyval)) (st : pool) : Prop :=
  ∃ calls rest,
    pool_stage rows (rows_of (shared st)) (futures st) rest
    ∧ issued (db_of (shared st)) = before ++ calls
    ∧ calls ++ rest ≡ₚ concat (lookups_of <$> rows).

(** The calls one after the other, each run alone: what one worker does. *)
Fixpoint run_in_turn {DB : Database} (ps : list (prog ref)) (w : world)
  : world * list (outcome ref) :=
  match ps with
  | [] => (w, [])
  | p :: ps' =>
      let (w1, o) := run p w in
      let (w2, os) := run_in_turn ps' w1 in
      (w2, o :: os)
  end.

(** Keys in order of first occurrence, as a [dict] keeps them. *)
Definition add_key (ks : list key) (k : key) : list key :=
  if decide (k ∈ ks) then ks else ks ++ [k].

(** The columns of the rows read under a header: its names, each once, in
    the order they first come in. *)
Definition header_keys (header : list string) : list key :=
  foldl add_key [] (Some <$> header).

(** ** The program

    [db_instance = PostgreSQLDatabase(DB_CONFIG)], the reader of
    [INPUT_CSV_FILE], the writer of [OUTPUT_CSV_FILE], then
    [try: processor.process_data(); print(...) finally: db_instance.close()].
    The connection is the one [psycopg2.connect] has given; the two files are
    different files. *)
Definition INPUT_CSV_FILE : string := "input.csv".
Definition OUTPUT_CSV_FILE : string := "output.csv".

(** [PostgreSQLDatabase.close]: [self.cursor.close()], then
    [self.conn.close()]. *)
Inductive close_call : Type :=
| Cursor_close
| Connection_close.

Definition close (closed : list close_call) : list close_call :=
  closed ++ [Cursor_close; Connection_close].

Inductive line : Type :=
| Line (m : message)
| Processing_complete (path : string).

(** What a run leaves: the lines printed, the output file, the connection,
    the calls that closed it, and the exception that ended the run, if any. *)
Record main_end {DB : Database} : Type := Main_end {
  printed : list line;
  output_file : option csv_file;
  database : connection;
  close_calls : list close_call;
  main_raised : option exn;
}.

Arguments Main_end {DB} _ _ _ _ _.
Arguments printed {DB} _.
Arguments output_file {DB} _.
Arguments database {DB} _.
Arguments close_calls {DB} _.
Arguments main_raised {DB} _.

Definition main {DB : Database} `{PyStr} (sched : list nat) (c : connection)
    (input output : option csv_file) : option main_end :=
  out ← process_data (ICSVReader0 := CSVFileReader) (ICSVWriter0 := CSVFileWriter)
          MAX_WORKERS sched {| db := c; reader := input; writer := output |};
  Some (Main_end
          ((Line <$> stdout out)
           ++ match raised out with
              | None => [Processing_complete OUTPUT_CSV_FILE]
              | Some _ => []
              end)
          (end_writer out)
          (end_db out)
          (close [])
          (raised out)).


(** * Properties *)

(** ** Dictionaries *)

Lemma dict_lookup_set_eq k v d : dict_lookup k (dict_set k v d) = Some v.
Proof.
  induction d as [|[k' v'] d IH]; simpl.
  - by rewrite decide_True.
  - destruct (decide (k' = k)) as [->|Hne]; simpl.
    + by rewrite decide_True.
    + by rewrite decide_False.
Qed.

Lemma dict_lookup_set_ne k k' v d :
  k ≠ k' → dict_lookup k' (dict_set k v d) = dict_lookup k' d.
Proof.
  intros Hne. induction d as [|[k0 v0] d IH]; simpl.
  - by rewrite decide_False.
  - destruct (decide (k0 = k)) as [->|Hk0]; simpl.
    + by rewrite !decide_False.
    + destruct (decide (k0 = k')); [done | apply IH].
Qed.

(** Setting a key leaves the other fields as they were, names, values and
    order. *)
Lemma filter_dict_set (P : key * pyval → Prop) `{!∀ kv, Decision (P kv)} k v d :
  (∀ v', ¬ P (k, v')) → filter P (dict_set k v d) = filter P d.
Proof.
  intros HP. induction d as [|[k0 v0] d IH]; cbn [dict_set].
  - rewrite filter_cons_False; [done | apply HP].
  - destruct (decide (k0 = k)) as [->|Hk0].
    + rewrite !filter_cons_False; [done | apply HP | apply HP].
    + rewrite !filter_cons. rewrite IH. done.
Qed.

Lemma other_fields_enriched gid eid d :
  other_fields (dict_set (Some "eid") eid (dict_set (Some "gid") gid d)) = other_fields d.
Proof.
  unfold other_fields.
  rewrite !filter_dict_set; [done | |]; simpl; intros v' [? ?]; congruence.
Qed.

(** ** Calls that run alone *)

Section Sequential.
Context {DB : Database}.

Lemma run_bind {A B : Type} (m : prog A) (f : A → prog B) (w : world) :
  run (m ≫= f) w =
  match run m w with
  | (w', Returned a) => run (f a) w'
  | (w', Raised e) => (w', Raised e)
  end.
Proof.
  revert w. induction m as [a|row k cont IH|row k v cont IH|q p cont IH|cont IH];
    intros w; simpl.
  - done.
  - destruct (rows_of w !! row); [apply IH | done].
  - destruct (rows_of w !! row); [apply IH | done].
  - destruct (cursor_execute (db_of w) q p) as [c' [e|]]; [done | apply IH].
  - destruct (cursor_fetchone (db_of w)) as [c' [r|e]]; [apply IH | done].
Qed.

(** [execute_query] alone: the statement goes to the server; its error is
    raised, its result set gives the first column of its first row. *)
Lemma run_execute_query q p (w : world) :
  run (execute_query q p) w =
  match server (conn (db_of w)) q p with
  | (s', inl rows) =>
      (World (rows_of w)
         (Connection s' (Some (tail rows)) (issued (db_of w) ++ [(q, p)])),
       Returned (first_column rows))
  | (s', inr e) =>
      (World (rows_of w) (Connection s' None (issued (db_of w) ++ [(q, p)])),
       Raised e)
  end.
Proof.
  unfold execute_query. simpl. unfold cursor_execute.
  destruct (server (conn (db_of w)) q p) as [s' [rows|e]]; simpl; [|done].
  unfold cursor_fetchone; simpl.
  destruct rows as [|[|c cols] rest]; done.
Qed.

End Sequential.

Section Process_row.
Context {DB : Database}.

Lemma run_execute_query_rows q p (w : world) :
  rows_of (run (execute_query q p) w).1 = rows_of w.
Proof.
  rewrite run_execute_query.
  by destruct (server (conn (db_of w)) q p) as [s' [rows|e]].
Qed.

Lemma run_lookup_rows query input (w : world) :
  rows_of (run (lookup_if_present query input) w).1 = rows_of w.
Proof.
  unfold lookup_if_present. destruct (truthy input); [|done].
  apply run_execute_query_rows.
Qed.

(** [process_row] alone: the two optional lookups one after the other, then
    the two assignments, unless a lookup raises. *)
Lemma run_process_row row (w : world) d :
  rows_of w !! row = Some d →
  run (process_row row) w =
  match run (lookup_if_present GID_QUERY (dict_get d (Some "input_gid") PNone)) w with
  | (w1, Raised x) => (w1, Raised x)
  | (w1, Returned gid) =>
      match run (lookup_if_present EID_QUERY (dict_get d (Some "input_eid") PNone)) w1 with
      | (w2, Raised x) => (w2, Raised x)
      | (w2, Returned eid) =>
          (World (<[row := dict_set (Some "eid") eid (dict_set (Some "gid") gid d)]>
                    (rows_of w))
             (db_of w2),
           Returned row)
      end
  end.
Proof.
  intros Hd. unfold process_row, row_get. cbn [mbind prog_bind bind run].
  rewrite Hd.
  fold (lookup_if_present GID_QUERY (dict_get d (Some "input_gid") PNone)).
  fold (lookup_if_present EID_QUERY (dict_get d (Some "input_eid") PNone)).
  change (bind ?f ?m) with (m ≫= f).
  rewrite run_bind.
  pose proof (run_lookup_rows GID_QUERY (dict_get d (Some "input_gid") PNone) w) as H1.
  destruct (run (lookup_if_present GID_QUERY _) w) as [w1 [gid|x]]; [|done].
  simpl in H1. rewrite run_bind.
  pose proof (run_lookup_rows EID_QUERY (dict_get d (Some "input_eid") PNone) w1) as H2.
  destruct (run (lookup_if_present EID_QUERY _) w1) as [w2 [eid|x]]; [|done].
  simpl in H2. unfold row_set. cbn [mbind prog_bind bind run].
  assert (Hlen : row < length (rows_of w)) by (by eapply lookup_lt_Some).
  rewrite H2, H1, Hd. cbn [rows_of].
  rewrite list_lookup_insert_eq by done.
  by rewrite list_insert_insert_eq.
Qed.

End Process_row.

Section Lookups.
Context {DB : Database}.

(** C5. [execute_query] sends the one statement it is given and returns the
    first column of the first row of its result set, and [None] (no error)
    when the result set has no row. *)
Theorem execute_query_first_column_or_none query param (w : world) :
  let (w', result) := run (execute_query query param) w in
  sent_by (db_of w) (db_of w') [(query, param)]
  ∧ match (server (conn (db_of w)) query param).2 with
    | inl ((c :: _) :: _) => result = Returned (of_column c)
    | inl [] => result = Returned PNone
    | inl ([] :: _) => result = Returned PNone
    | inr e => result = Raised e
    end.
Proof.
  rewrite run_execute_query. unfold sent_by.
  destruct (server (conn (db_of w)) query param) as [s' [rows|e]]; simpl.
  - split; [done|]. by destruct rows as [|[|c cols] rest].
  - done.
Qed.

Lemma run_lookup_if_present query input (w : world) :
  let (w', result) := run (lookup_if_present query input) w in
  rows_of w' = rows_of w
  ∧ if truthy input
    then sent_by (db_of w) (db_of w') [(query, input)]
    else w' = w ∧ result = Returned PNone.
Proof.
  unfold lookup_if_present. destruct (truthy input) eqn:Ht; [|done].
  pose proof (run_execute_query_rows query input w) as Hrows.
  pose proof (execute_query_first_column_or_none query input w) as Hq.
  destruct (run (execute_query query input) w) as [w' result].
  split; [done | apply Hq].
Qed.

(** C2. A row whose [input_gid] and [input_eid] are both missing or empty is
    enriched without any statement being sent: it gets [gid] and [eid] set to
    [None] and is returned.  In general the statements a call sends are those
    of [lookups_of]: one per source field that is present and non-empty, all
    of them when the call returns, the first ones when a lookup raises; a
    lookup that is not made leaves [None] in its field. *)
Theorem process_row_skips_absent_fields row (w : world) d :
  rows_of w !! row = Some d →
  (missing_or_empty d "input_gid" → missing_or_empty d "input_eid" →
   run (process_row row) w =
   (World (<[row := dict_set (Some "eid") PNone (dict_set (Some "gid") PNone d)]>
             (rows_of w)) (db_of w),
    Returned row))
  ∧ ∃ calls, sent_by (db_of w) (db_of (run (process_row row) w).1) calls
      ∧ match (run (process_row row) w).2 with
        | Returned _ =>
            calls = lookups_of d
            ∧ ∃ d', rows_of (run (process_row row) w).1 !! row = Some d'
                ∧ (missing_or_empty d "input_gid" → dict_lookup (Some "gid") d' = Some PNone)
                ∧ (missing_or_empty d "input_eid" → dict_lookup (Some "eid") d' = Some PNone)
        | Raised _ => calls `prefix_of` lookups_of d ∧ calls ≠ []
        end.
Proof.
  intros Hd. rewrite (run_process_row row w d Hd).
  unfold missing_or_empty, lookups_of.
  pose proof (run_lookup_if_present GID_QUERY (dict_get d (Some "input_gid") PNone) w) as H1.
  destruct (run (lookup_if_present GID_QUERY _) w) as [w1 o1].
  destruct H1 as [Hr1 H1].
  pose proof (run_lookup_if_present EID_QUERY (dict_get d (Some "input_eid") PNone) w1) as H2.
  destruct (run (lookup_if_present EID_QUERY _) w1) as [w2 o2].
  destruct H2 as [Hr2 H2].
  assert (Hlen : row < length (rows_of w)) by (by eapply lookup_lt_Some).
  split.
  - intros Hg He. rewrite Hg in H1. rewrite He in H2.
    destruct H1 as [-> ->], H2 as [-> ->]. done.
  - unfold sent_by in *.
    destruct (truthy (dict_get d (Some "input_gid") PNone)) eqn:Hg;
      destruct (truthy (dict_get d (Some "input_eid") PNone)) eqn:He.
    + destruct o1 as [gid|x]; [destruct o2 as [eid|x]|]; simpl.
      * exists [(GID_QUERY, dict_get d (Some "input_gid") PNone);
                (EID_QUERY, dict_get d (Some "input_eid") PNone)].
        split; [by rewrite H2, H1, <-(assoc_L (++))|].
        split; [done|]. eexists. split; [by apply list_lookup_insert_eq|done].
      * exists [(GID_QUERY, dict_get d (Some "input_gid") PNone);
                (EID_QUERY, dict_get d (Some "input_eid") PNone)].
        split; [by rewrite H2, H1, <-(assoc_L (++))|]. done.
      * exists [(GID_QUERY, dict_get d (Some "input_gid") PNone)].
        split; [done|]. split; [|done]. by eexists [_].
    + destruct H2 as [-> ->]. destruct o1 as [gid|x]; simpl.
      * exists [(GID_QUERY, dict_get d (Some "input_gid") PNone)].
        split; [done|]. split; [done|]. eexists.
        split; [by apply list_lookup_insert_eq|]. split; [done|].
        intros _. apply dict_lookup_set_eq.
      * exists [(GID_QUERY, dict_get d (Some "input_gid") PNone)]. done.
    + destruct H1 as [-> ->]. destruct o2 as [eid|x]; simpl.
      * exists [(EID_QUERY, dict_get d (Some "input_eid") PNone)].
        split; [done|]. split; [done|]. eexists.
        split; [by apply list_lookup_insert_eq|]. split; [|done].
        intros _. rewrite dict_lookup_set_ne by done. apply dict_lookup_set_eq.
      * exists [(EID_QUERY, dict_get d (Some "input_eid") PNone)]. done.
    + destruct H1 as [-> ->], H2 as [-> ->]. simpl. exists [].
      split; [by rewrite (right_id_L [] (++))|]. split; [done|]. eexists.
      split; [by apply list_lookup_insert_eq|]. split; intros _.
      * rewrite dict_lookup_set_ne by done. apply dict_lookup_set_eq.
      * apply dict_lookup_set_eq.
Qed.

(** C9. [process_row] returns the row object it was given; of that object it
    sets [gid] and [eid] and leaves every other field in place, with its
    name, value and position; it touches no other row object.  When a lookup
    raises, no row object has changed at all. *)
Theorem process_row_frame row (w : world) d :
  rows_of w !! row = Some d →
  match run (process_row row) w with
  | (w', Returned r) =>
      r = row
      ∧ (∃ gid eid,
           rows_of w' !! row = Some (dict_set (Some "eid") eid (dict_set (Some "gid") gid d))
           ∧ dict_lookup (Some "gid") (dict_set (Some "eid") eid (dict_set (Some "gid") gid d))
             = Some gid
           ∧ dict_lookup (Some "eid") (dict_set (Some "eid") eid (dict_set (Some "gid") gid d))
             = Some eid
           ∧ other_fields (dict_set (Some "eid") eid (dict_set (Some "gid") gid d))
             = other_fields d)
      ∧ (∀ r', r' ≠ row → rows_of w' !! r' = rows_of w !! r')
  | (w', Raised _) => rows_of w' = rows_of w
  end.
Proof.
  intros Hd. rewrite (run_process_row row w d Hd).
  pose proof (run_lookup_rows GID_QUERY (dict_get d (Some "input_gid") PNone) w) as H1.
  destruct (run (lookup_if_present GID_QUERY _) w) as [w1 [gid|x]]; [|done].
  pose proof (run_lookup_rows EID_QUERY (dict_get d (Some "input_eid") PNone) w1) as H2.
  destruct (run (lookup_if_present EID_QUERY _) w1) as [w2 [eid|x]]; simpl in *; [|congruence].
  assert (Hlen : row < length (rows_of w)) by (by eapply lookup_lt_Some).
  split; [done|]. split.
  - exists gid, eid. split; [by apply list_lookup_insert_eq|].
    split; [|split].
    + rewrite dict_lookup_set_ne by done. apply dict_lookup_set_eq.
    + apply dict_lookup_set_eq.
    + apply other_fields_enriched.
  - intros r' Hne. by apply list_lookup_insert_ne.
Qed.

End Lookups.

(** ** The pool *)

Section Pool.
Context {DB : Database}.

(** *** One step of a program *)

Lemma step_prog_rows_length (p : prog ref) (w : world) :
  length (rows_of (step_prog p w).1) = length (rows_of w).
Proof.
  destruct p as [a|row k cont|row k v cont|q param cont|cont]; simpl.
  - done.
  - by destruct (rows_of w !! row).
  - destruct (rows_of w !! row); [|done]. simpl. by rewrite length_insert.
  - by destruct (cursor_execute (db_of w) q param) as [c' [e|]].
  - by destruct (cursor_fetchone (db_of w)) as [c' [r|e]].
Qed.

Lemma step_prog_owns i (p : prog ref) (w : world) :
  owns i p →
  match (step_prog p w).2 with
  | inl p' => owns i p'
  | inr (Returned row) => row = i
  | inr (Raised _) => True
  end.
Proof.
  destruct p as [a|row k cont|row k v cont|q param cont|cont]; simpl.
  - done.
  - intros [_ H]. destruct (rows_of w !! row); simpl; [apply H | done].
  - intros [_ H]. by destruct (rows_of w !! row).
  - intros H. by destruct (cursor_execute (db_of w) q param) as [c' [e|]].
  - intros H. destruct (cursor_fetchone (db_of w)) as [c' [r|e]]; simpl; [apply H | done].
Qed.

Lemma step_prog_within b (p : prog ref) (w : world) :
  within (S b) p →
  match (step_prog p w).2 with
  | inl p' => within b p'
  | inr _ => True
  end.
Proof.
  destruct p as [a|row k cont|row k v cont|q param cont|cont]; simpl.
  - done.
  - intros H. destruct (rows_of w !! row); simpl; [apply H | done].
  - intros H. by destruct (rows_of w !! row).
  - intros H. by destruct (cursor_execute (db_of w) q param) as [c' [e|]].
  - intros H. destruct (cursor_fetchone (db_of w)) as [c' [r|e]]; simpl; [apply H | done].
Qed.

(** *** One step of a future *)

Lemma step_future_futures i (st : pool) f :
  futures st !! i = Some f →
  futures (step_future i st) = <[i := moved (shared st) f]> (futures st).
Proof.
  intros Hf. unfold step_future. rewrite Hf.
  destruct f as [p|p|o]; simpl.
  - done.
  - by destruct (step_prog p (shared st)) as [w' [p'|o]].
  - by rewrite list_insert_id.
Qed.

Lemma step_future_rows_length i (st : pool) :
  length (rows_of (shared (step_future i st))) = length (rows_of (shared st)).
Proof.
  unfold step_future. destruct (futures st !! i) as [[p|p|o]|]; try done.
  pose proof (step_prog_rows_length p (shared st)) as H.
  by destruct (step_prog p (shared st)) as [w' [p'|o]].
Qed.

Lemma moved_owns i w f : future_owns i f → future_owns i (moved w f).
Proof.
  destruct f as [p|p|o]; simpl; [done| |done].
  intros H. pose proof (step_prog_owns i p w H) as Hs.
  by destruct ((step_prog p w).2) as [p'|[row|e]].
Qed.

Lemma moved_within b w f : future_within (S b) f → future_within b (moved w f).
Proof.
  destruct f as [p|p|o]; simpl; [done| |done].
  intros H. pose proof (step_prog_within b p w H) as Hs.
  by destruct ((step_prog p w).2) as [p'|o].
Qed.

Lemma future_within_0 f : future_within 0 f → is_finished f.
Proof. by destruct f. Qed.

(** *** The budget of the pool *)

Lemma pool_within_finished fs : Forall is_finished fs → pool_within fs 0.
Proof.
  induction 1 as [|f fs Hf _ IH]; [constructor|].
  change 0 with (0 + 0). constructor; [by destruct f | done].
Qed.

Lemma pool_within_0 fs : pool_within fs 0 → Forall is_finished fs.
Proof.
  remember 0 as m eqn:Hm. induction 1 as [|f fs b m Hf _ IH]; [constructor|].
  assert (b = 0 ∧ m = 0) as [-> ->] by lia.
  constructor; [by apply future_within_0 | by apply IH].
Qed.

Lemma pool_within_moved w fs m i f :
  pool_within fs m → fs !! i = Some f → ¬ is_finished f →
  ∃ m', m = S m' ∧ pool_within (<[i := moved w f]> fs) m'.
Proof.
  intros H. revert i. induction H as [|f0 fs b m Hf0 Hfs IH]; intros i Hi Hnf.
  - done.
  - destruct i as [|i]; simpl in *.
    + injection Hi as ->. destruct b as [|b].
      { destruct Hnf. by apply future_within_0. }
      exists (b + m). split; [done|]. constructor; [by apply moved_within | done].
    + destruct (IH i Hi Hnf) as (m' & -> & Hm').
      exists (b + m'). split; [lia|]. by constructor.
Qed.

(** *** The futures that can move *)

Lemma elem_of_runnable max_workers fs i :
  i ∈ runnable max_workers fs →
  ∃ f, fs !! i = Some f
       ∧ (is_running f ∨ (is_pending f ∧ running_count fs < max_workers)).
Proof.
  unfold runnable. rewrite elem_of_app. intros [Hi|Hi].
  - apply list_elem_of_filter in Hi as [Hrun _]. unfold running_at in Hrun.
    destruct (fs !! i) as [f|]; [|done]. eauto.
  - destruct (decide (running_count fs < max_workers)) as [Hlt|]; [|by apply elem_of_nil in Hi].
    destruct (list_find is_pending fs) as [[j f]|] eqn:Hfind; [|by apply elem_of_nil in Hi].
    apply list_elem_of_singleton in Hi as ->.
    apply list_find_Some in Hfind as (Hj & Hp & _). eauto.
Qed.

Lemma running_at_runnable max_workers fs i f :
  fs !! i = Some f → is_running f → i ∈ runnable max_workers fs.
Proof.
  intros Hi Hf. unfold runnable. apply elem_of_app. left.
  apply list_elem_of_filter. split.
  - unfold running_at. by rewrite Hi.
  - apply elem_of_seq. apply lookup_lt_Some in Hi. lia.
Qed.

Lemma runnable_nonempty max_workers fs :
  1 ≤ max_workers → ¬ Forall is_finished fs → runnable max_workers fs ≠ [].
Proof.
  intros HW Hnf Hnil.
  apply not_Forall_Exists in Hnf; [|apply _].
  apply Exists_exists in Hnf as (f & Hin & Hf).
  apply list_elem_of_lookup in Hin as [i Hi].
  destruct f as [p|p|o]; [| |by destruct Hf].
  - destruct (decide (running_count fs < max_workers)) as [Hlt|Hge].
    + unfold runnable in Hnil. rewrite decide_True in Hnil by done.
      apply app_eq_nil in Hnil as [_ Hnil].
      destruct (list_find is_pending fs) as [[j g]|] eqn:Hfind; [done|].
      apply list_find_None in Hfind.
      eapply Forall_lookup_1 in Hfind; [|exact Hi]. by destruct Hfind.
    + unfold running_count in Hge.
      destruct (filter is_running fs) as [|g gs] eqn:Hfilter; [simpl in Hge; lia|].
      assert (g ∈ filter is_running fs) as Hg by (rewrite Hfilter; left).
      apply list_elem_of_filter in Hg as [Hrun Hg].
      apply list_elem_of_lookup in Hg as [j Hj].
      pose proof (running_at_runnable max_workers fs j g Hj Hrun) as Hin.
      rewrite Hnil in Hin. by apply elem_of_nil in Hin.
  - pose proof (running_at_runnable max_workers fs i (Running p) Hi I) as Hin.
    rewrite Hnil in Hin. by apply elem_of_nil in Hin.
Qed.

Lemma pick_elem_of (pick i0 : nat) (l : list nat) :
  l ≠ [] → nth (pick mod length l) l i0 ∈ l.
Proof.
  intros Hl. apply list_elem_of_In, nth_In.
  apply Nat.mod_upper_bound. by destruct l.
Qed.

(** A step of the pool moves one future that can move, or nothing when none
    can. *)
Lemma pool_step_cases max_workers pick (st : pool) :
  (runnable max_workers (futures st) = [] ∧ pool_step max_workers pick st = st)
  ∨ ∃ i f, i ∈ runnable max_workers (futures st)
           ∧ futures st !! i = Some f
           ∧ (is_running f ∨ (is_pending f ∧ running_count (futures st) < max_workers))
           ∧ pool_step max_workers pick st = step_future i st.
Proof.
  unfold pool_step.
  destruct (runnable max_workers (futures st)) as [|i0 l] eqn:Hrun; [by left|].
  right. set (i := nth _ _ _).
  assert (i ∈ runnable max_workers (futures st)) as Hi.
  { rewrite Hrun. by apply pick_elem_of. }
  destruct (elem_of_runnable _ _ _ Hi) as (f & Hf & Hcan).
  exists i, f. by rewrite <-Hrun.
Qed.

Lemma step_future_inv n i (st : pool) : pool_inv n st → pool_inv n (step_future i st).
Proof.
  intros (Hlen & Hrows & Hown). split; [|split].
  - destruct (futures st !! i) as [f|] eqn:Hf.
    + rewrite (step_future_futures i st f Hf). by rewrite length_insert.
    + unfold step_future. by rewrite Hf.
  - by rewrite step_future_rows_length.
  - destruct (futures st !! i) as [f|] eqn:Hf.
    + rewrite (step_future_futures i st f Hf). intros j g Hj.
      destruct (decide (i = j)) as [<-|Hne].
      * rewrite list_lookup_insert_eq in Hj by (by eapply lookup_lt_Some).
        injection Hj as <-. apply moved_owns. by apply Hown.
      * rewrite list_lookup_insert_ne in Hj by done. by apply Hown.
    + unfold step_future. by rewrite Hf.
Qed.

Lemma pool_step_inv n max_workers pick (st : pool) :
  pool_inv n st → pool_inv n (pool_step max_workers pick st).
Proof.
  intros Hinv.
  destruct (pool_step_cases max_workers pick st) as [[_ ->]|(i & f & _ & _ & _ & ->)];
    [done | by apply step_future_inv].
Qed.

Lemma run_pool_inv n max_workers sched fuel (st : pool) :
  pool_inv n st → pool_inv n (run_pool max_workers sched fuel st).
Proof.
  revert sched st. induction fuel as [|fuel IH]; intros sched st Hinv; simpl; [done|].
  apply IH. by apply pool_step_inv.
Qed.

(** The pool comes to an end: with a worker at all, and a budget within the
    fuel, every future is finished when the fuel is used up, whatever the
    schedule. *)
Lemma run_pool_finishes max_workers sched fuel (st : pool) m :
  1 ≤ max_workers → pool_within (futures st) m → m ≤ fuel →
  Forall is_finished (futures (run_pool max_workers sched fuel st)).
Proof.
  intros HW. revert sched st m.
  induction fuel as [|fuel IH]; intros sched st m Hm Hle; simpl.
  - apply pool_within_0. by replace m with 0 in Hm by lia.
  - destruct (decide (Forall is_finished (futures st))) as [Hfin|Hnf].
    + destruct (pool_step_cases max_workers (hd 0 sched) st)
        as [[_ ->]|(i & f & _ & Hf & Hcan & _)].
      * apply (IH _ _ 0); [by apply pool_within_finished | lia].
      * eapply Forall_lookup_1 in Hfin; [|exact Hf].
        destruct f; simpl in *; tauto.
    + destruct (pool_step_cases max_workers (hd 0 sched) st)
        as [[Hnil _]|(i & f & _ & Hf & Hcan & ->)].
      * by apply runnable_nonempty in Hnil.
      * assert (¬ is_finished f) as Hf' by (destruct f; simpl in *; tauto).
        destruct (pool_within_moved (shared st) _ _ _ _ Hm Hf Hf') as (m' & -> & Hm').
        apply (IH _ _ m'); [|lia]. by rewrite (step_future_futures i st f Hf).
Qed.

(** *** Workers at work *)

Lemma length_filter_insert {A} (P : A → Prop) `{!∀ x, Decision (P x)} (l : list A) i x y :
  l !! i = Some x →
  length (filter P (<[i := y]> l)) + (if decide (P x) then 1 else 0)
  = length (filter P l) + (if decide (P y) then 1 else 0).
Proof.
  revert i. induction l as [|a l IH]; intros i Hi; [done|].
  destruct i as [|i]; simpl in *.
  - injection Hi as ->. rewrite !filter_cons.
    destruct (decide (P x)), (decide (P y)); simpl; lia.
  - specialize (IH i Hi). rewrite !filter_cons.
    destruct (decide (P a)); simpl; lia.
Qed.

Lemma length_filter_impl {A} (P Q : A → Prop)
    `{!∀ x, Decision (P x), !∀ x, Decision (Q x)} (l : list A) :
  (∀ x, P x → Q x) → length (filter P l) ≤ length (filter Q l).
Proof.
  intros HPQ. induction l as [|a l IH]; [done|].
  rewrite !filter_cons.
  destruct (decide (P a)) as [HP|], (decide (Q a)) as [|HQ]; simpl; try lia.
  destruct HQ. by apply HPQ.
Qed.

Lemma pool_step_running_count max_workers pick (st : pool) :
  running_count (futures st) ≤ max_workers →
  running_count (futures (pool_step max_workers pick st)) ≤ max_workers.
Proof.
  intros Hle.
  destruct (pool_step_cases max_workers pick st)
    as [[_ ->]|(i & f & _ & Hf & Hcan & ->)]; [done|].
  rewrite (step_future_futures i st f Hf). unfold running_count in *.
  pose proof (length_filter_insert is_running (futures st) i f
                (moved (shared st) f) Hf) as Hcount.
  destruct f as [p|p|o]; simpl in *.
  - destruct Hcan as [[]|[_ Hlt]]. lia.
  - destruct (step_prog p (shared st)).2; simpl in *; lia.
  - destruct Hcan as [[]|[[] _]].
Qed.

Lemma run_pool_running_count max_workers sched fuel (st : pool) :
  running_count (futures st) ≤ max_workers →
  running_count (futures (run_pool max_workers sched fuel st)) ≤ max_workers.
Proof.
  revert sched st. induction fuel as [|fuel IH]; intros sched st Hle; simpl; [done|].
  apply IH. by apply pool_step_running_count.
Qed.

(** *** The futures of [process_data] *)

Lemma process_row_owns i : owns i (process_row i).
Proof.
  unfold process_row, row_get, row_set. simpl. split; [done|]. intros g.
  split; [done|]. intros e.
  destruct (truthy g), (truthy e); simpl; repeat (split || intros); done.
Qed.

Lemma process_row_within i : within 9 (process_row i).
Proof.
  unfold process_row, row_get, row_set. simpl. intros g e.
  destruct (truthy g), (truthy e); simpl; done.
Qed.

Lemma submit_all_lookup rows i :
  submit_all rows !! i = (λ _, Pending (process_row i)) <$> rows !! i.
Proof. unfold submit_all. apply list_lookup_imap. Qed.

Lemma submit_all_length rows : length (submit_all rows) = length rows.
Proof. unfold submit_all. apply length_imap. Qed.

Lemma pool_within_all b fs :
  Forall (future_within b) fs → pool_within fs (b * length fs).
Proof.
  induction 1 as [|f fs Hf _ IH]; simpl.
  - rewrite Nat.mul_0_r. constructor.
  - replace (b * S (length fs)) with (b + b * length fs) by lia. by constructor.
Qed.

Lemma submit_all_within rows :
  pool_within (submit_all rows) (pool_fuel (length rows)).
Proof.
  unfold pool_fuel. rewrite <-(submit_all_length rows).
  apply pool_within_all. apply Forall_lookup. intros i f Hf.
  rewrite submit_all_lookup in Hf. destruct (rows !! i); [|done].
  injection Hf as <-. apply process_row_within.
Qed.

Lemma submit_all_inv rows c :
  pool_inv (length rows) (Pool (World rows c) (submit_all rows)).
Proof.
  split; [apply submit_all_length|]. split; [done|]. simpl. intros i f Hf.
  rewrite submit_all_lookup in Hf. destruct (rows !! i); [|done].
  injection Hf as <-. apply process_row_owns.
Qed.

Lemma submit_all_running_count rows : running_count (submit_all rows) = 0.
Proof.
  unfold running_count. apply length_zero_iff_nil.
  destruct (filter is_running (submit_all rows)) as [|f fs] eqn:Hfilter; [done|].
  assert (f ∈ filter is_running (submit_all rows)) as Hf by (rewrite Hfilter; left).
  apply list_elem_of_filter in Hf as [Hrun Hf].
  apply list_elem_of_lookup in Hf as [i Hi].
  rewrite submit_all_lookup in Hi. destruct (rows !! i); [|done].
  injection Hi as <-. done.
Qed.

End Pool.

(** ** Collecting the results *)

Lemma owned_from_cons i f fs :
  owned_from i (f :: fs) → future_owns i f ∧ owned_from (S i) fs.
Proof.
  intros H. split.
  - specialize (H 0 f eq_refl). by rewrite Nat.add_0_r in H.
  - intros j g Hj. specialize (H (S j) g Hj).
    by replace (S i + j) with (i + S j) by lia.
Qed.

Lemma fan_in_cons i f fs results failures :
  fan_in i (f :: fs) = Some (results, failures) →
  ∃ results' failures',
    fan_in (S i) fs = Some (results', failures')
    ∧ ((∃ row, f = Finished (Returned row)
               ∧ results = row :: results' ∧ failures = failures')
       ∨ (∃ e, f = Finished (Raised e)
               ∧ results = results' ∧ failures = (i, e) :: failures')).
Proof.
  simpl. destruct f as [p|p|[row|e]]; try done;
    destruct (fan_in (S i) fs) as [[results' failures']|]; try done;
    intros [= <- <-]; eauto 10.
Qed.

Lemma fan_in_is_Some i fs : Forall is_finished fs → is_Some (fan_in i fs).
Proof.
  intros H. revert i. induction H as [|f fs Hf _ IH]; intros i; simpl; [done|].
  destruct (IH (S i)) as [[results failures] ->].
  destruct f as [p|p|[row|e]]; done.
Qed.


(** Every future gives its index once: to [results] or to the failures. *)
Lemma fan_in_perm i fs results failures :
  owned_from i fs → fan_in i fs = Some (results, failures) →
  results ++ failures.*1 ≡ₚ seq i (length fs).
Proof.
  revert i results failures. induction fs as [|f fs IH]; intros i results failures Hown H.
  - by injection H as <- <-.
  - apply owned_from_cons in Hown as [Hf Hown].
    apply fan_in_cons in H
      as (results' & failures' & Hrest & [(row & -> & -> & ->)|(e & -> & -> & ->)]);
      specialize (IH _ _ _ Hown Hrest); simpl in *.
    + subst row. by rewrite IH.
    + rewrite <-IH. by rewrite <-Permutation_middle.
Qed.

(** [results] keeps the order of submission. *)
Lemma fan_in_sublist i fs results failures :
  owned_from i fs → fan_in i fs = Some (results, failures) →
  results `sublist_of` seq i (length fs)
  ∧ failures.*1 `sublist_of` seq i (length fs).
Proof.
  revert i results failures. induction fs as [|f fs IH]; intros i results failures Hown H.
  - by injection H as <- <-.
  - apply owned_from_cons in Hown as [Hf Hown].
    apply fan_in_cons in H
      as (results' & failures' & Hrest & [(row & -> & -> & ->)|(e & -> & -> & ->)]);
      destruct (IH _ _ _ Hown Hrest) as [Hres Hfail]; simpl in *.
    + subst row. split; [by apply sublist_skip | by apply sublist_cons].
    + split; [by apply sublist_cons | by apply sublist_skip].
Qed.


Lemma fan_in_failure_inv i fs results failures k e :
  fan_in i fs = Some (results, failures) → (k, e) ∈ failures →
  ∃ j, k = i + j ∧ fs !! j = Some (Finished (Raised e)).
Proof.
  revert i results failures. induction fs as [|f fs IH]; intros i results failures H Hk.
  - injection H as <- <-. by apply elem_of_nil in Hk.
  - apply fan_in_cons in H
      as (results' & failures' & Hrest & [(row & -> & -> & ->)|(e' & -> & -> & ->)]).
    + destruct (IH _ _ _ Hrest Hk) as (j & -> & Hj). exists (S j). split; [lia | done].
    + apply elem_of_cons in Hk as [[= -> ->]|Hk].
      * exists 0. split; [lia | done].
      * destruct (IH _ _ _ Hrest Hk) as (j & -> & Hj). exists (S j). split; [lia | done].
Qed.

Lemma fan_in_result_inv i fs results failures row :
  fan_in i fs = Some (results, failures) → row ∈ results →
  ∃ j, fs !! j = Some (Finished (Returned row)).
Proof.
  revert i results failures. induction fs as [|f fs IH]; intros i results failures H Hk.
  - injection H as <- <-. by apply elem_of_nil in Hk.
  - apply fan_in_cons in H
      as (results' & failures' & Hrest & [(row' & -> & -> & ->)|(e' & -> & -> & ->)]).
    + apply elem_of_cons in Hk as [->|Hk].
      * by exists 0.
      * destruct (IH _ _ _ Hrest Hk) as (j & Hj). by exists (S j).
    + destruct (IH _ _ _ Hrest Hk) as (j & Hj). by exists (S j).
Qed.

Lemma fan_in_length i fs results failures :
  fan_in i fs = Some (results, failures) →
  length results + length failures = length fs.
Proof.
  revert i results failures. induction fs as [|f fs IH]; intros i results failures H.
  - by injection H as <- <-.
  - apply fan_in_cons in H
      as (results' & failures' & Hrest & [(row' & -> & -> & ->)|(e' & -> & -> & ->)]);
      specialize (IH _ _ _ Hrest); simpl; lia.
Qed.

(** ** process_data *)

Section Process_data_runs.
Context {DB : Database} {R Wr : Type} `{!ICSVReader R, !ICSVWriter Wr}.

(** With a worker at all and a reader that opens, [process_data] comes to
    its end under every schedule: all futures are finished, each has given
    its result or its exception, and the writer got the rows of [results]. *)
Lemma process_data_completes max_workers sched (self : DataProcessor R Wr) rows :
  1 ≤ max_workers → read_rows (reader self) = inl rows →
  ∃ out data errors,
    process_data max_workers sched self = Some out
    ∧ end_futures out
      = futures (run_pool max_workers sched (pool_fuel (length rows))
                   (Pool (World rows (db self)) (submit_all rows)))
    ∧ length (end_futures out) = length rows
    ∧ length (end_rows out) = length rows
    ∧ owned_from 0 (end_futures out)
    ∧ Forall is_finished (end_futures out)
    ∧ fan_in 0 (end_futures out) = Some (results out, failures out)
    ∧ mapM (λ row, end_rows out !! row) (results out) = Some data
    ∧ mapM (report (end_rows out)) (failures out) = Some errors
    ∧ stdout out = errors ++ (write_rows data (writer self)).1.2
    ∧ end_writer out = (write_rows data (writer self)).1.1
    ∧ raised out = (write_rows data (writer self)).2.
Proof.
  intros HW Hread. unfold process_data.
  rewrite decide_False by lia. rewrite Hread.
  set (st := run_pool _ _ _ _).
  assert (pool_inv (length rows) st) as (Hlen & Hrows & Hown).
  { apply run_pool_inv, submit_all_inv. }
  assert (Forall is_finished (futures st)) as Hfin.
  { eapply run_pool_finishes; [done | apply submit_all_within | done]. }
  destruct (fan_in_is_Some 0 (futures st) Hfin) as [[results failures] Hfan].
  rewrite Hfan. cbn [mbind option_bind].
  assert (is_Some (mapM (report (rows_of (shared st))) failures)) as [errors Herrors].
  { apply mapM_is_Some, Forall_forall. intros [k e] Hk.
    destruct (fan_in_failure_inv _ _ _ _ _ _ Hfan Hk) as (j & -> & Hj).
    unfold report. simpl. apply lookup_lt_Some in Hj.
    destruct (lookup_lt_is_Some_2 (rows_of (shared st)) j) as [d ->]; [lia | done]. }
  assert (is_Some (mapM (λ row, rows_of (shared st) !! row) results)) as [data Hdata].
  { apply mapM_is_Some, Forall_forall. intros row Hrow.
    destruct (fan_in_result_inv _ _ _ _ _ Hfan Hrow) as (j & Hj).
    pose proof (Hown j _ Hj) as Hj'. simpl in Hj'. subst row.
    apply lookup_lt_Some in Hj. apply lookup_lt_is_Some_2. lia. }
  rewrite Herrors. cbn [mbind option_bind]. rewrite Hdata. cbn [mbind option_bind].
  destruct (write_rows data (writer self)) as [[wr printed] e] eqn:Hwrite.
  eexists _, data, errors. split; [done|]. simpl.
  repeat split; try done; by rewrite Hwrite.
Qed.

End Process_data_runs.

Section Process_data_claims.
Context {DB : Database} {R Wr : Type} `{!ICSVReader R, !ICSVWriter Wr}.

(** C1. Whatever the schedule, [process_data] ends with one outcome per
    record of the input: the indices of the records, each once, are those in
    [results] together with those of the failures reported, so no record is
    in both or in neither, and the two counts add up to the number of
    records.  One line is printed per failure. *)
Theorem process_data_one_outcome_per_record max_workers sched
    (self : DataProcessor R Wr) rows :
  1 ≤ max_workers → read_rows (reader self) = inl rows →
  ∃ out, process_data max_workers sched self = Some out
    ∧ results out ++ (failures out).*1 ≡ₚ seq 0 (length rows)
    ∧ length (results out) + length (failures out) = length rows
    ∧ ∃ errors printed,
        stdout out = errors ++ printed ∧ length errors = length (failures out).
Proof.
  intros HW Hread.
  destruct (process_data_completes max_workers sched self rows HW Hread)
    as (out & data & errors & Hout & _ & Hlen & _ & Hown & _ & Hfan & _ & Herrors & Hstdout & _).
  exists out. split; [done|]. split; [|split].
  - rewrite <-Hlen. by apply fan_in_perm.
  - rewrite <-Hlen. by eapply fan_in_length.
  - exists errors, (write_rows data (writer self)).1.2. split; [done|].
    symmetry. by eapply length_mapM.
Qed.

(** Without any record [process_data] still calls the writer, once, with
    the empty list: what it leaves is what that one call leaves. *)
Lemma process_data_empty_input max_workers sched (self : DataProcessor R Wr) :
  1 ≤ max_workers → read_rows (reader self) = inl [] →
  process_data max_workers sched self
  = Some (Completed (db self) [] [] [] []
            (write_rows [] (writer self)).1.2
            (write_rows [] (writer self)).1.1
            (write_rows [] (writer self)).2).
Proof.
  intros HW Hread. unfold process_data.
  rewrite decide_False by lia. rewrite Hread. simpl.
  by destruct (write_rows [] (writer self)) as [[wr printed] e].
Qed.

End Process_data_claims.

(** C8. For an input without records the writer is called once, with the
    empty list; [CSVFileWriter] then prints that there is nothing to write,
    raises nothing and leaves the destination as it is, not created and not
    emptied. *)
Theorem empty_input_reaches_writer_once `{DB : Database} {R : Type} `{!ICSVReader R}
    `{!PyStr} max_workers sched :
  1 ≤ max_workers →
  (∀ (self : DataProcessor R (list (list dict))),
     read_rows (reader self) = inl [] →
     ∃ out, process_data (ICSVWriter0 := RecordingWriter) max_workers sched self = Some out
            ∧ end_writer out = writer self ++ [[]])
  ∧ (∀ (self : DataProcessor R (option csv_file)),
       read_rows (reader self) = inl [] →
       ∃ out, process_data (ICSVWriter0 := CSVFileWriter) max_workers sched self = Some out
              ∧ end_writer out = writer self
              ∧ stdout out = [No_data_to_write]
              ∧ raised out = None)
  ∧ (∀ file : option csv_file,
       write_rows (ICSVWriter := CSVFileWriter) [] file = (file, [No_data_to_write], None)).
Proof.
  intros HW. split; [|split].
  - intros self Hread. eexists. split; [by apply process_data_empty_input|done].
  - intros self Hread. eexists. split; [by apply process_data_empty_input|done].
  - done.
Qed.

Section Workers.
Context {DB : Database}.

Lemma running_count_pending fs f :
  f ∈ fs → is_pending f → running_count fs < length fs.
Proof.
  intros Hin Hf. unfold running_count.
  eapply length_filter_lt; [exact Hin|]. destruct f; simpl in *; tauto.
Qed.

(** Workers beyond the number of futures make no difference. *)
Lemma runnable_enough_workers w1 w2 fs :
  length fs ≤ w1 → length fs ≤ w2 → runnable w1 fs = runnable w2 fs.
Proof.
  intros H1 H2. unfold runnable. f_equal.
  destruct (list_find is_pending fs) as [[i f]|] eqn:Hfind.
  - apply list_find_Some in Hfind as (Hi & Hf & _).
    pose proof (running_count_pending fs f (list_elem_of_lookup_2 _ _ _ Hi) Hf).
    by rewrite !decide_True by lia.
  - by do 2 case_decide.
Qed.

Lemma pool_step_length max_workers pick (st : pool) :
  length (futures (pool_step max_workers pick st)) = length (futures st).
Proof.
  destruct (pool_step_cases max_workers pick st)
    as [[_ ->]|(i & f & _ & Hf & _ & ->)]; [done|].
  by rewrite (step_future_futures i st f Hf), length_insert.
Qed.

Lemma run_pool_enough_workers w1 w2 sched fuel (st : pool) :
  length (futures st) ≤ w1 → length (futures st) ≤ w2 →
  run_pool w1 sched fuel st = run_pool w2 sched fuel st.
Proof.
  revert sched st. induction fuel as [|fuel IH]; intros sched st H1 H2; simpl; [done|].
  assert (pool_step w1 (hd 0 sched) st = pool_step w2 (hd 0 sched) st) as Hstep.
  { unfold pool_step. by rewrite (runnable_enough_workers w1 w2). }
  rewrite Hstep. apply IH; by rewrite pool_step_length.
Qed.

Lemma in_lookup_bounded max_workers sched fuel rows (c : connection) :
  length (filter in_lookup
            (futures (run_pool max_workers sched fuel
                        (Pool (World rows c) (submit_all rows))))) ≤ max_workers.
Proof.
  etrans.
  - apply (length_filter_impl in_lookup is_running). by intros [p|[]|o].
  - apply run_pool_running_count. simpl. rewrite submit_all_running_count. lia.
Qed.

End Workers.

(** C4, as the code has it. The code takes no lock around the cursor, and
    store access is serialized only as far as the pool bounds it.  Whatever
    the input, the schedule and the number of workers, no more workers than
    [max_workers] are inside [execute_query] at the same time; so with one
    worker access is serialized.  With two workers or more it is not: there
    are an input, two records with an [input_gid], and a schedule under which
    two workers are inside [execute_query] at the same time. *)
Theorem lookups_in_flight_bounded :
  (∀ (DB : Database) max_workers sched fuel rows (c : connection),
     length (filter in_lookup
               (futures (run_pool max_workers sched fuel
                           (Pool (World rows c) (submit_all rows))))) ≤ max_workers)
  ∧ (∀ (DB : Database) sched fuel rows (c : connection),
       serialized (futures (run_pool 1 sched fuel (Pool (World rows c) (submit_all rows)))))
  ∧ (∀ max_workers,
       2 ≤ max_workers →
       ¬ serialized
           (futures (run_pool max_workers racy_schedule 8 (sample_pool [row_a; row_b])))).
Proof.
  split; [|split].
  - intros DB max_workers sched fuel rows c. apply in_lookup_bounded.
  - intros DB sched fuel rows c. apply (in_lookup_bounded 1).
  - intros max_workers HW.
    rewrite (run_pool_enough_workers max_workers 2) by (simpl; lia).
    unfold serialized. vm_compute. lia.
Qed.

(** ** Writing rows and reading them back *)




Section Round_trip.
Context `{!PyStr}.







End Round_trip.

(** ** The sample store at work *)

(** C4, as the claim has it, fails. With the five workers of [MAX_WORKERS]
    and two rows, after eight steps of [racy_schedule] two workers are inside
    [execute_query] at once: both have sent their statement, neither has
    fetched its row. *)
Lemma store_access_not_serialized :
  ¬ serialized (futures (run_pool MAX_WORKERS racy_schedule 8 (sample_pool [row_a; row_b]))).
Proof. unfold serialized. vm_compute. lia. Qed.

(** C6. The store is deterministic, the input is the same, and the rows
    written differ with the number of workers: with one worker row ["a"]
    gets [gid] 1 and row ["b"] gets [gid] 2; with five workers and
    [racy_schedule] row ["a"] gets the [gid] of row ["b"], and row ["b"]
    gets none. *)
Lemma worker_count_changes_results :
  deterministic_store sample_db
  ∧ ∃ one five,
      sample_run 1 [] [row_a; row_b] = Some one
      ∧ sample_run MAX_WORKERS racy_schedule [row_a; row_b] = Some five
      ∧ (results one, failures one, raised one) = ([0; 1], [], None)
      ∧ (results five, failures five, raised five) = ([0; 1], [], None)
      ∧ end_writer one
        = Some [["input_gid"; "input_eid"; "gid"; "eid"];
                ["a"; ""; "1"; ""]; ["b"; ""; "2"; ""]]
      ∧ end_writer five
        = Some [["input_gid"; "input_eid"; "gid"; "eid"];
                ["a"; ""; "2"; ""]; ["b"; ""; ""; ""]].
Proof.
  split.
  - by exists sample_answer.
  - eexists _, _. split; [vm_compute; reflexivity|].
    split; [vm_compute; reflexivity|]. done.
Qed.

(** *** Instances of the theorems *)

Lemma process_data_one_outcome_per_record_witness :
  1 ≤ MAX_WORKERS
  ∧ read_rows (ICSVReader := RowsReader) [row_a; row_boom; row_none]
    = inl [row_a; row_boom; row_none]
  ∧ ∃ out, sample_run MAX_WORKERS [] [row_a; row_boom; row_none] = Some out
      ∧ results out ++ (failures out).*1 ≡ₚ seq 0 3
      ∧ length (results out) + length (failures out) = 3
      ∧ ∃ errors printed,
          stdout out = errors ++ printed ∧ length errors = length (failures out).
Proof.
  split; [unfold MAX_WORKERS; lia|]. split; [reflexivity|].
  apply (@process_data_one_outcome_per_record sample_db (list dict) (option csv_file)
           RowsReader (@CSVFileWriter sample_str) MAX_WORKERS []
           (sample_processor [row_a; row_boom; row_none]) [row_a; row_boom; row_none]);
    [unfold MAX_WORKERS; lia | reflexivity].
Defined.

Lemma process_row_skips_absent_fields_witness :
  rows_of (World [row_none] fresh_connection) !! 0 = Some row_none
  ∧ missing_or_empty row_none "input_gid"
  ∧ missing_or_empty row_none "input_eid"
  ∧ run (process_row 0) (World [row_none] fresh_connection)
    = (World [[(Some "name", PStr "x"); (Some "input_eid", PStr "");
               (Some "gid", PNone); (Some "eid", PNone)]] fresh_connection,
       Returned 0).
Proof.
  split; [reflexivity|]. split; [reflexivity|]. split; [reflexivity|].
  apply (proj1 (process_row_skips_absent_fields 0 (World [row_none] fresh_connection)
                  row_none eq_refl)); reflexivity.
Defined.

Lemma lookups_in_flight_bounded_witness :
  2 ≤ 2
  ∧ ¬ serialized (futures (run_pool 2 racy_schedule 8 (sample_pool [row_a; row_b]))).
Proof.
  split; [lia|]. apply (proj2 (proj2 lookups_in_flight_bounded) 2). lia.
Defined.

Lemma empty_input_reaches_writer_once_witness :
  1 ≤ MAX_WORKERS
  ∧ ∃ out, sample_run MAX_WORKERS [] [] = Some out
      ∧ end_writer out = None
      ∧ stdout out = [No_data_to_write]
      ∧ raised out = None.
Proof.
  split; [unfold MAX_WORKERS; lia|].
  apply (proj1 (proj2 (@empty_input_reaches_writer_once sample_db (list dict) RowsReader
                         sample_str MAX_WORKERS []
                         ltac:(unfold MAX_WORKERS; lia)))
           (sample_processor [])).
  reflexivity.
Defined.

Lemma process_row_frame_witness :
  rows_of (World [row_none; row_a] fresh_connection) !! 1 = Some row_a
  ∧ match run (process_row 1) (World [row_none; row_a] fresh_connection) with
    | (w', Returned r) =>
        r = 1
        ∧ (∃ gid eid,
             rows_of w' !! 1
             = Some (dict_set (Some "eid") eid (dict_set (Some "gid") gid row_a))
             ∧ dict_lookup (Some "gid")
                 (dict_set (Some "eid") eid (dict_set (Some "gid") gid row_a)) = Some gid
             ∧ dict_lookup (Some "eid")
                 (dict_set (Some "eid") eid (dict_set (Some "gid") gid row_a)) = Some eid
             ∧ other_fields (dict_set (Some "eid") eid (dict_set (Some "gid") gid row_a))
               = other_fields row_a)
        ∧ (∀ r', r' ≠ 1 → rows_of w' !! r' = [row_none; row_a] !! r')
    | (w', Raised _) => rows_of w' = [row_none; row_a]
    end.
Proof.
  split; [reflexivity|].
  apply (process_row_frame 1 (World [row_none; row_a] fresh_connection) row_a).
  reflexivity.
Defined.


(** * More of the code *)

(** ** CSVFileWriter.write_rows *)

Section Writer.
Context `{!PyStr}.

Lemma dict_to_list_fits fieldnames rowdict :
  fits fieldnames rowdict →
  DictWriter_dict_to_list fieldnames rowdict = inl (row_fields fieldnames rowdict).
Proof.
  intros Hfits. unfold DictWriter_dict_to_list.
  destruct (filter (λ k, k ∉ fieldnames) (keys rowdict)) as [|k ks] eqn:Hfilter; [done|].
  assert (k ∈ filter (λ k, k ∉ fieldnames) (keys rowdict)) as Hk by (rewrite Hfilter; left).
  apply list_elem_of_filter in Hk as [Hout Hin]. destruct Hout. by apply Hfits.
Qed.

Lemma dict_to_list_unfit fieldnames rowdict :
  ¬ fits fieldnames rowdict →
  DictWriter_dict_to_list fieldnames rowdict
  = inr (unknown_fields_error fieldnames rowdict).
Proof.
  intros Hunfit. unfold DictWriter_dict_to_list, unknown_fields_error, unknown_fields.
  destruct (filter (λ k, k ∉ fieldnames) (keys rowdict)) as [|k ks] eqn:Hfilter; [|done].
  destruct Hunfit. intros k Hk.
  destruct (decide (k ∈ fieldnames)) as [|Hout]; [done|].
  assert (k ∈ filter (λ k, k ∉ fieldnames) (keys rowdict)) as Hin
    by (by apply list_elem_of_filter).
  rewrite Hfilter in Hin. by apply elem_of_nil in Hin.
Qed.

Lemma writerows_fits fieldnames data written :
  Forall (fits fieldnames) data →
  DictWriter_writerows fieldnames data written
  = (written ++ (row_fields fieldnames <$> data), None).
Proof.
  intros Hdata. revert written.
  induction Hdata as [|d data Hd _ IH]; intros written; simpl.
  - by rewrite (right_id_L [] (++)).
  - rewrite dict_to_list_fits by done. rewrite IH. by rewrite <-(assoc_L (++)).
Qed.

Lemma writerows_stops fieldnames good bad rest written :
  Forall (fits fieldnames) good → ¬ fits fieldnames bad →
  DictWriter_writerows fieldnames (good ++ bad :: rest) written
  = (written ++ (row_fields fieldnames <$> good),
     Some (unknown_fields_error fieldnames bad)).
Proof.
  intros Hgood Hbad. revert written.
  induction Hgood as [|d good Hd _ IH]; intros written; simpl.
  - rewrite dict_to_list_unfit by done. by rewrite (right_id_L [] (++)).
  - rewrite dict_to_list_fits by done. rewrite IH. by rewrite <-(assoc_L (++)).
Qed.

Lemma fits_own_keys d : fits (keys d) d.
Proof. by intros k. Qed.

(** X1. [write_rows] takes the header from the keys of the first row.  When
    no later row has a key outside of it, the destination, whatever it held,
    ends with the header and one line per row, in order, each with as many
    fields as the header; nothing is printed and nothing is raised. *)
Theorem write_rows_writes_every_row first rest file :
  Forall (fits (keys first)) rest →
  write_rows (ICSVWriter := CSVFileWriter) (first :: rest) file
  = (Some ((csv_key <$> keys first) :: (row_fields (keys first) <$> first :: rest)),
     [], None)
  ∧ Forall (λ line, length line = length (keys first))
      (row_fields (keys first) <$> first :: rest).
Proof.
  intros Hrest. split.
  - unfold write_rows, CSVFileWriter.
    rewrite writerows_fits; [done|]. constructor; [apply fits_own_keys | done].
  - apply Forall_fmap, Forall_true. intros d. unfold compose, row_fields.
    by rewrite length_fmap.
Qed.

(** X2. When a row has a key that the first row has not, [write_rows] raises
    [ValueError] at the first such row, with the text of [csv.DictWriter]
    that ends with these keys, and leaves the destination with the header
    and the lines of the rows before it: a part of the output. *)
Theorem write_rows_stops_at_unknown_field first good bad rest file :
  Forall (fits (keys first)) good → ¬ fits (keys first) bad →
  write_rows (ICSVWriter := CSVFileWriter) (first :: good ++ bad :: rest) file
  = (Some ((csv_key <$> keys first) :: (row_fields (keys first) <$> first :: good)),
     [],
     Some (ValueError ("dict contains fields not in fieldnames: "
                       +:+ repr_fields (unknown_fields (keys first) bad)))).
Proof.
  intros Hgood Hbad. unfold write_rows, CSVFileWriter.
  rewrite (writerows_stops (keys first) (first :: good) bad rest); [done| |done].
  constructor; [apply fits_own_keys | done].
Qed.

End Writer.

Lemma write_rows_writes_every_row_witness :
  Forall (fits (keys row_enriched)) [row_enriched]
  ∧ write_rows (ICSVWriter := @CSVFileWriter sample_str) [row_enriched; row_enriched]
      (Some [["old"]])
    = (Some [["input_gid"; "gid"; "eid"]; ["a"; "1"; ""]; ["a"; "1"; ""]], [], None).
Proof.
  assert (Forall (fits (keys row_enriched)) [row_enriched]) as Hfits.
  { constructor; [apply fits_own_keys | constructor]. }
  split; [exact Hfits|].
  apply (proj1 (@write_rows_writes_every_row sample_str row_enriched [row_enriched]
                  (Some [["old"]]) Hfits)).
Defined.

Lemma write_rows_stops_at_unknown_field_witness :
  Forall (fits (keys row_enriched)) [row_enriched]
  ∧ ¬ fits (keys row_enriched) row_extra
  ∧ write_rows (ICSVWriter := @CSVFileWriter sample_str)
      [row_enriched; row_enriched; row_extra; row_enriched] None
    = (Some [["input_gid"; "gid"; "eid"]; ["a"; "1"; ""]; ["a"; "1"; ""]], [],
       Some (ValueError "dict contains fields not in fieldnames: None")).
Proof.
  assert (Forall (fits (keys row_enriched)) [row_enriched]) as Hfits.
  { constructor; [apply fits_own_keys | constructor]. }
  assert (¬ fits (keys row_enriched) row_extra) as Hunfit.
  { intros H.
    assert (None ∈ keys row_enriched) as Hin.
    { apply H. simpl. do 3 right. left. }
    simpl in Hin. repeat (apply elem_of_cons in Hin as [?|Hin]; [done|]).
    by apply elem_of_nil in Hin. }
  split; [exact Hfits|]. split; [exact Hunfit|].
  apply (@write_rows_stops_at_unknown_field sample_str row_enriched [row_enriched]
           row_extra [row_enriched] None Hfits Hunfit).
Defined.

(** ** CSVFileReader.read_rows *)

Lemma dict_set_fresh k v d : k ∉ keys d → dict_set k v d = d ++ [(k, v)].
Proof.
  induction d as [|[k' v'] d IH]; simpl; [done|].
  intros Hk. apply not_elem_of_cons in Hk as [Hne Hk].
  rewrite decide_False by done. by rewrite IH.
Qed.

Lemma foldl_set_fresh (l : list (key * pyval)) d :
  NoDup (keys d ++ l.*1) →
  foldl (λ d kv, dict_set kv.1 kv.2 d) d l = d ++ l.
Proof.
  revert d. induction l as [|[k v] l IH]; intros d Hnodup; simpl.
  - by rewrite (right_id_L [] (++)).
  - simpl in Hnodup. rewrite dict_set_fresh.
    + rewrite IH; [by rewrite <-(assoc_L (++))|].
      unfold keys. rewrite fmap_app. simpl. by rewrite <-(assoc_L (++)).
    + apply NoDup_app in Hnodup as (_ & Hdisj & _). intros Hk.
      apply (Hdisj k Hk). left.
Qed.

Lemma NoDup_fst_zip {A B} (a : list A) (b : list B) : NoDup a → NoDup (zip a b).*1.
Proof.
  intros Ha. revert b. induction Ha as [|x a Hx _ IH]; intros b.
  - constructor.
  - destruct b as [|y b]; simpl; [constructor|].
    apply NoDup_cons. split; [|apply IH].
    intros Hin. apply list_elem_of_fmap in Hin as ([x' y'] & -> & Hin).
    by apply elem_of_zip_l in Hin.
Qed.

Lemma dict_of_pairs_distinct (l : list (key * pyval)) :
  NoDup l.*1 → dict_of_pairs l = l.
Proof. intros Hl. unfold dict_of_pairs. by rewrite foldl_set_fresh. Qed.

Lemma DictReader_row_distinct header line :
  NoDup header → DictReader_row header line = row_of_line header line.
Proof.
  intros Hheader. unfold DictReader_row, row_of_line.
  assert (NoDup (Some <$> header)) as Hsome.
  { apply (NoDup_fmap_2 _). done. }
  rewrite dict_of_pairs_distinct by (by apply NoDup_fst_zip).
  destruct (decide (length header < length line)) as [Hlong|Hnotlong].
  - rewrite (decide_False (P := length line ≤ length header)) by lia.
    apply dict_set_fresh.
    intros Hin. apply list_elem_of_fmap in Hin as ([k v] & Hk & Hin).
    apply elem_of_zip_l in Hin. apply list_elem_of_fmap in Hin as (s & -> & _).
    done.
  - rewrite (decide_True (P := length line ≤ length header)) by lia.
    destruct (decide (length line < length header)) as [Hshort|Hsame].
    + rewrite <-(foldl_fmap (λ d kv, dict_set kv.1 kv.2 d) _ _ (λ k, (Some k, PNone))).
      rewrite foldl_set_fresh.
      * rewrite <-(take_drop (length line) header) at 3.
        rewrite fmap_app, zip_with_app by (rewrite !length_fmap, length_take; lia).
        rewrite <-(zip_with_take_l _ (Some <$> header) (PStr <$> line)).
        rewrite length_fmap, fmap_take. f_equal.
        rewrite zip_with_replicate_r by (rewrite length_fmap, length_drop; lia).
        by rewrite <-list_fmap_compose.
      * rewrite <-(zip_with_take_l _ (Some <$> header) (PStr <$> line)).
        rewrite length_fmap, <-fmap_take.
        unfold keys. rewrite fst_zip by (rewrite !length_fmap, length_take; lia).
        rewrite <-list_fmap_compose. simpl.
        change (fst ∘ (λ k, (Some k, PNone))) with (@Some string).
        rewrite <-fmap_app, take_drop. done.
    + replace (length header - length line) with 0 by lia.
      simpl. by rewrite (right_id_L [] (++)).
Qed.

(** X3. Under a header of distinct names [read_rows] yields one row per line
    that is not blank, in order, each mapping the names of the header, in
    their order, to the fields of the line; a line shorter than the header
    gets [None] for the names it has no field for; what a longer line has
    beyond the header is kept, as a list, under the key [None]. *)
Theorem read_rows_distinct_header header lines :
  NoDup header →
  read_rows (ICSVReader := CSVFileReader) (Some (header :: lines))
  = inl (row_of_line header <$> filter (λ line, line ≠ []) lines).
Proof.
  intros Hheader. unfold read_rows, CSVFileReader, DictReader. f_equal.
  apply list_fmap_ext. intros i line _. by apply DictReader_row_distinct.
Qed.

Lemma read_rows_distinct_header_witness :
  NoDup ["input_gid"; "input_eid"]
  ∧ read_rows (ICSVReader := CSVFileReader)
      (Some [["input_gid"; "input_eid"]; ["a"]; []; ["b"; "c"; "d"]])
    = inl [ [(Some "input_gid", PStr "a"); (Some "input_eid", PNone)];
            [(Some "input_gid", PStr "b"); (Some "input_eid", PStr "c");
             (None, PList ["d"])] ].
Proof.
  assert (NoDup ["input_gid"; "input_eid"]) as Hnodup.
  { apply (bool_decide_unpack _). reflexivity. }
  split; [exact Hnodup|].
  apply (read_rows_distinct_header ["input_gid"; "input_eid"]
           [["a"]; []; ["b"; "c"; "d"]] Hnodup).
Defined.

(** ** The columns after process_row *)

Lemma keys_dict_set_old k v d : k ∈ keys d → keys (dict_set k v d) = keys d.
Proof.
  induction d as [|[k' v'] d IH]; simpl; [by intros ?%elem_of_nil|].
  intros Hk. destruct (decide (k' = k)) as [->|Hne]; [done|]. simpl.
  apply elem_of_cons in Hk as [->|Hk]; [done|]. f_equal. by apply IH.
Qed.

Lemma keys_dict_set_new k v d : k ∉ keys d → keys (dict_set k v d) = keys d ++ [k].
Proof.
  intros Hk. rewrite dict_set_fresh by done. unfold keys. by rewrite fmap_app.
Qed.

Lemma keys_enriched gid eid d :
  keys (dict_set (Some "eid") eid (dict_set (Some "gid") gid d)) = enriched_keys (keys d).
Proof.
  unfold enriched_keys.
  destruct (decide (Some "gid" ∈ keys d)) as [Hgid|Hgid];
    destruct (decide (Some "eid" ∈ keys d)) as [Heid|Heid].
  - rewrite keys_dict_set_old by (by rewrite keys_dict_set_old).
    rewrite keys_dict_set_old by done. by rewrite !(right_id_L [] (++)).
  - rewrite keys_dict_set_new by (by rewrite keys_dict_set_old).
    by rewrite keys_dict_set_old.
  - rewrite keys_dict_set_old
      by (rewrite keys_dict_set_new by done; apply elem_of_app; by left).
    by rewrite keys_dict_set_new by done.
  - rewrite keys_dict_set_new.
    + rewrite keys_dict_set_new by done. by rewrite <-(assoc_L (++)).
    + rewrite keys_dict_set_new by done.
      intros [Hin|Hin]%elem_of_app; [done|].
      by apply list_elem_of_singleton in Hin.
Qed.

Section Columns.
Context {DB : Database}.

(** X4. When [process_row] returns, the row has the columns it had, in the
    same order; ["gid"] and ["eid"] that were columns already keep their
    place (their values are overwritten), and the ones that were not are
    added at the end, ["gid"] before ["eid"]. *)
Theorem process_row_column_order row (w w' : world) d r :
  rows_of w !! row = Some d →
  run (process_row row) w = (w', Returned r) →
  ∃ d', rows_of w' !! row = Some d' ∧ keys d' = enriched_keys (keys d).
Proof.
  intros Hd. rewrite (run_process_row row w d Hd).
  destruct (run (lookup_if_present GID_QUERY _) w) as [w1 [gid|x]]; [|done].
  destruct (run (lookup_if_present EID_QUERY _) w1) as [w2 [eid|x]]; [|done].
  intros [= <- _]. simpl.
  exists (dict_set (Some "eid") eid (dict_set (Some "gid") gid d)).
  split; [|apply keys_enriched].
  apply list_lookup_insert_eq. by eapply lookup_lt_Some.
Qed.

End Columns.

Lemma process_row_column_order_witness :
  ∃ w',
    rows_of (World [row_enriched] fresh_connection) !! 0 = Some row_enriched
    ∧ run (process_row 0) (World [row_enriched] fresh_connection) = (w', Returned 0)
    ∧ ∃ d', rows_of w' !! 0 = Some d'
            ∧ keys d' = [Some "input_gid"; Some "gid"; Some "eid"].
Proof.
  eexists. split; [reflexivity|]. split; [vm_compute; reflexivity|].
  apply (@process_row_column_order sample_db 0 (World [row_enriched] fresh_connection)
           _ row_enriched 0 eq_refl).
  vm_compute. reflexivity.
Defined.

(** ** Rows and statements under every schedule *)

Lemma pool_stage_split rows cells fs rest j f :
  pool_stage rows cells fs rest → fs !! j = Some f →
  ∃ d ph l rest1 rest2,
    rows !! j = Some d
    ∧ cells !! j = Some (cell_of d ph)
    ∧ future_stage d ph l f
    ∧ rest = rest1 ++ l ++ rest2
    ∧ ∀ ph' l' f',
        future_stage d ph' l' f' →
        pool_stage rows (<[j := cell_of d ph']> cells) (<[j := f']> fs)
          (rest1 ++ l' ++ rest2).
Proof.
  intros H. revert j.
  induction H as [|d ph l f0 rows cells fs rest Hf0 Hrest IH]; intros j Hj; [done|].
  destruct j as [|j]; simpl in Hj.
  - injection Hj as ->. exists d, ph, l, [], rest.
    repeat split; try done. intros ph' l' f' Hf'. simpl. by constructor.
  - destruct (IH j Hj) as (d' & ph' & l' & rest1 & rest2 & Hd & Hc & Hf & -> & Hupd).
    exists d', ph', l', (l ++ rest1), rest2.
    repeat split; try done.
    + by rewrite <-(assoc_L (++)).
    + intros ph'' l'' f'' Hf''. simpl. rewrite <-(assoc_L (++)).
      constructor; [done | by apply Hupd].
Qed.


Section Stages.
Context {DB : Database}.

Lemma cursor_execute_issued (c : connection) q x :
  issued (cursor_execute c q x).1 = issued c ++ [(q, x)].
Proof.
  unfold cursor_execute. by destruct (server (conn c) q x) as [s' [rows|e]].
Qed.

Lemma cursor_fetchone_issued (c : connection) :
  issued (cursor_fetchone c).1 = issued c.
Proof. unfold cursor_fetchone. by destruct (cursor c) as [[|r rs]|]. Qed.

(** One step of a call at its stage. *)
Lemma step_prog_stage j d ph l (p : prog ref) (w : world) :
  stage d ph l p → owns j p → rows_of w !! j = Some (cell_of d ph) →
  ∃ ph' l',
    rows_of (step_prog p w).1 = <[j := cell_of d ph']> (rows_of w)
    ∧ future_stage d ph' l' (moved w (Running p))
    ∧ ((l' = l ∧ issued (db_of (step_prog p w).1) = issued (db_of w))
       ∨ (∃ c, l = c :: l'
               ∧ issued (db_of (step_prog p w).1) = issued (db_of w) ++ [c])).
Proof.
  intros Hstage Hown Hcell.
  destruct p as [a|row k cont|row k v cont|q x cont|cont]; simpl in *.
  - exists ph, l. split; [by rewrite list_insert_id|]. split; [done|]. by left.
  - destruct Hown as [-> _]. destruct Hstage as [-> Hstage]. simpl in Hcell.
    rewrite Hcell. simpl. exists Reading, l.
    split; [by rewrite list_insert_id|]. split; [done|]. by left.
  - destruct Hown as [-> _]. rewrite Hcell. simpl.
    destruct Hstage as [(-> & -> & Hstage)|(gid & -> & -> & Hstage)].
    + exists (GidSet v), l. split; [done|]. split; [done|]. by left.
    + exists (BothSet gid v), l. split; [done|]. split; [done|]. by left.
  - destruct Hstage as (-> & l' & -> & Hstage).
    pose proof (cursor_execute_issued (db_of w) q x) as Hissued.
    destruct (cursor_execute (db_of w) q x) as [c' [e|]]; simpl in *.
    + exists Reading, l'. split; [by rewrite list_insert_id|]. split; [done|].
      right. by exists (q, x).
    + exists Reading, l'. split; [by rewrite list_insert_id|]. split; [done|].
      right. by exists (q, x).
  - destruct Hstage as (-> & Hstage).
    pose proof (cursor_fetchone_issued (db_of w)) as Hissued.
    destruct (cursor_fetchone (db_of w)) as [c' [r|e]]; simpl in *.
    + exists Reading, l. split; [by rewrite list_insert_id|]. split; [apply Hstage|].
      by left.
    + exists Reading, l. split; [by rewrite list_insert_id|]. split; [done|]. by left.
Qed.

Lemma step_future_shared i (st : pool) :
  shared (step_future i st)
  = match futures st !! i with
    | Some (Running p) => (step_prog p (shared st)).1
    | _ => shared st
    end.
Proof.
  unfold step_future. destruct (futures st !! i) as [[p|p|o]|]; try done.
  by destruct (step_prog p (shared st)) as [w' [p'|o]].
Qed.

Lemma step_future_stage_inv n rows before i (st : pool) :
  pool_inv n st → stage_inv rows before st → stage_inv rows before (step_future i st).
Proof.
  intros (_ & _ & Hown) (calls & rest & Hpool & Hissued & Hperm).
  destruct (futures st !! i) as [f|] eqn:Hf;
    [|unfold step_future; rewrite Hf; by exists calls, rest].
  destruct (pool_stage_split _ _ _ _ _ _ Hpool Hf)
    as (d & ph & l & rest1 & rest2 & Hd & Hcell & Hstage & -> & Hupd).
  unfold stage_inv. rewrite (step_future_futures i st f Hf), step_future_shared, Hf.
  destruct f as [p|p|o].
  - exists calls, (rest1 ++ l ++ rest2). split; [|done].
    rewrite <-(list_insert_id (rows_of (shared st)) i (cell_of d ph)) by done.
    by apply Hupd.
  - specialize (Hown i _ Hf). simpl in Hown.
    destruct (step_prog_stage i d ph l p (shared st) Hstage Hown Hcell)
      as (ph' & l' & Hrows & Hstage' & Hcalls).
    destruct Hcalls as [[-> Hsame]|(c & -> & Hmore)].
    + exists calls, (rest1 ++ l ++ rest2). split; [|split].
      * rewrite Hrows. by apply Hupd.
      * by rewrite Hsame.
      * done.
    + exists (calls ++ [c]), (rest1 ++ l' ++ rest2). split; [|split].
      * rewrite Hrows. by apply Hupd.
      * by rewrite Hmore, Hissued, <-(assoc_L (++)).
      * rewrite <-Hperm. rewrite <-!(assoc_L (++)). f_equiv. simpl.
        by rewrite Permutation_middle.
  - exists calls, (rest1 ++ l ++ rest2). split; [|done].
    rewrite <-(list_insert_id (rows_of (shared st)) i (cell_of d ph)) by done.
    by apply Hupd.
Qed.

Lemma run_pool_stage_inv n rows before max_workers sched fuel (st : pool) :
  pool_inv n st → stage_inv rows before st →
  stage_inv rows before (run_pool max_workers sched fuel st).
Proof.
  revert sched st. induction fuel as [|fuel IH]; intros sched st Hinv Hstage; simpl; [done|].
  apply IH; [by apply pool_step_inv|].
  destruct (pool_step_cases max_workers (hd 0 sched) st)
    as [[_ ->]|(i & f & _ & _ & _ & ->)]; [done|].
  by eapply step_future_stage_inv.
Qed.

Lemma process_row_stage i d : stage d Reading (lookups_of d) (process_row i).
Proof.
  unfold process_row, row_get, row_set, lookups_of. simpl.
  split; [done|]. split; [done|].
  destruct (truthy (dict_get d (Some "input_gid") PNone));
    destruct (truthy (dict_get d (Some "input_eid") PNone)); simpl;
    repeat match goal with
           | |- _ ∧ _ => split
           | |- ∀ _, _ => intros ?
           | |- ∃ _, _ => eexists
           | |- _ = _ => reflexivity
           | |- (Reading = Reading ∧ _) ∨ _ => left
           | |- _ ∨ _ => right
           end.
Qed.

End Stages.

Section Stages_of_process_data.
Context {DB : Database}.

Lemma pool_stage_submitted n rows :
  pool_stage rows rows (imap (λ i _, Pending (process_row (n + i))) rows)
    (concat (lookups_of <$> rows)).
Proof.
  revert n. induction rows as [|d rows IH]; intros n; [constructor|].
  rewrite imap_cons, fmap_cons. simpl concat.
  apply (pool_stage_cons d Reading).
  - apply process_row_stage.
  - rewrite (imap_ext _ (λ i _, Pending (process_row (S n + i)))); [apply IH|].
    intros i d' _. simpl. by rewrite Nat.add_succ_r.
Qed.

Lemma submit_all_stage_inv rows (c : connection) :
  stage_inv rows (issued c) (Pool (World rows c) (submit_all rows)).
Proof.
  exists [], (concat (lookups_of <$> rows)). split; [|split].
  - apply (pool_stage_submitted 0).
  - by rewrite (right_id_L [] (++)).
  - done.
Qed.

Lemma lookups_of_length d : length (lookups_of d) ≤ 2.
Proof.
  unfold lookups_of. rewrite length_app.
  destruct (truthy (dict_get d (Some "input_gid") PNone));
    destruct (truthy (dict_get d (Some "input_eid") PNone)); simpl; lia.
Qed.

Lemma lookups_length rows : length (concat (lookups_of <$> rows)) ≤ 2 * length rows.
Proof.
  induction rows as [|d rows IH]; [simpl; lia|].
  rewrite fmap_cons. cbn [concat]. rewrite length_app, length_cons.
  pose proof (lookups_of_length d). lia.
Qed.

End Stages_of_process_data.

Section Process_data_more.
Context {DB : Database} {R Wr : Type} `{!ICSVReader R, !ICSVWriter Wr}.

(** What [process_data] leaves is the state of the pool at its end. *)
Lemma process_data_end_state max_workers sched (self : DataProcessor R Wr) rows out :
  1 ≤ max_workers → read_rows (reader self) = inl rows →
  process_data max_workers sched self = Some out →
  World (end_rows out) (end_db out)
  = shared (run_pool max_workers sched (pool_fuel (length rows))
              (Pool (World rows (db self)) (submit_all rows))).
Proof.
  intros HW Hread. unfold process_data.
  rewrite decide_False by lia. rewrite Hread.
  set (st := run_pool _ _ _ _).
  destruct (fan_in 0 (futures st)) as [[results failures]|]; [|done].
  cbn [mbind option_bind].
  destruct (mapM (report (rows_of (shared st))) failures) as [errors|]; [|done].
  cbn [mbind option_bind].
  destruct (mapM (λ row, rows_of (shared st) !! row) results) as [data|]; [|done].
  cbn [mbind option_bind].
  destruct (write_rows data (writer self)) as [[wr printed] e].
  intros [= <-]. simpl. by destruct (shared st).
Qed.

(** The end of [process_data], with its stages. *)
Lemma process_data_stages max_workers sched (self : DataProcessor R Wr) rows :
  1 ≤ max_workers → read_rows (reader self) = inl rows →
  ∃ out data errors,
    process_data max_workers sched self = Some out
    ∧ stage_inv rows (issued (db self))
        (Pool (World (end_rows out) (end_db out)) (end_futures out))
    ∧ owned_from 0 (end_futures out)
    ∧ fan_in 0 (end_futures out) = Some (results out, failures out)
    ∧ mapM (λ row, end_rows out !! row) (results out) = Some data
    ∧ mapM (report (end_rows out)) (failures out) = Some errors
    ∧ stdout out = errors ++ (write_rows data (writer self)).1.2
    ∧ end_writer out = (write_rows data (writer self)).1.1
    ∧ raised out = (write_rows data (writer self)).2.
Proof.
  intros HW Hread.
  destruct (process_data_completes max_workers sched self rows HW Hread)
    as (out & data & errors & Hout & Hfutures & _ & _ & Hown & _ & Hfan & Hdata
        & Herrors & Hstdout & Hwriter & Hraised).
  exists out, data, errors. repeat split; try done.
  rewrite (process_data_end_state _ _ _ _ _ HW Hread Hout), Hfutures.
  set (st := run_pool _ _ _ _).
  assert (stage_inv rows (issued (db self)) st) as Hstage.
  { eapply run_pool_stage_inv; [apply submit_all_inv | apply submit_all_stage_inv]. }
  by destruct st as [w fs].
Qed.

(** X5. Under every schedule [process_data] leaves each row object in one of
    two states.  The row of a record in [results] is the record as read with
    [gid] and [eid] set and nothing else touched.  The row of a record that
    failed is exactly as it was read, and so is the row shown in the line
    printed for the failure. *)
Theorem rows_after_process_data max_workers sched (self : DataProcessor R Wr) rows :
  1 ≤ max_workers → read_rows (reader self) = inl rows →
  ∃ out, process_data max_workers sched self = Some out
    ∧ (∀ i d, rows !! i = Some d → i ∈ results out →
         ∃ gid eid,
           end_rows out !! i
           = Some (dict_set (Some "eid") eid (dict_set (Some "gid") gid d)))
    ∧ (∀ i d e, rows !! i = Some d → (i, e) ∈ failures out →
         end_rows out !! i = Some d ∧ Error_processing_row d e ∈ stdout out).
Proof.
  intros HW Hread.
  destruct (process_data_stages max_workers sched self rows HW Hread)
    as (out & data & errors & Hout & (calls & rest & Hpool & _) & Hown & Hfan & _
        & Herrors & Hstdout & _).
  simpl in Hpool. exists out. split; [done|]. split.
  - intros i d Hd Hi.
    destruct (fan_in_result_inv _ _ _ _ _ Hfan Hi) as (j & Hj).
    pose proof (Hown j _ Hj) as Hij. simpl in Hij. subst j.
    destruct (pool_stage_split _ _ _ _ _ _ Hpool Hj)
      as (d' & ph & l & _ & _ & Hd' & Hcell & Hstage & _).
    rewrite Hd in Hd'. injection Hd' as <-.
    destruct Hstage as [(gid & eid & ->) _]. by exists gid, eid.
  - intros i d e Hd Hi.
    destruct (fan_in_failure_inv _ _ _ _ _ _ Hfan Hi) as (j & -> & Hj). simpl in *.
    destruct (pool_stage_split _ _ _ _ _ _ Hpool Hj)
      as (d' & ph & l & _ & _ & Hd' & Hcell & Hstage & _).
    rewrite Hd in Hd'. injection Hd' as <-. simpl in Hstage. subst ph.
    split; [done|].
    apply mapM_Some_1 in Herrors.
    apply list_elem_of_lookup in Hi as [k Hk].
    destruct (Forall2_lookup_l _ _ _ _ _ Herrors Hk) as (msg & Hmsg & Hreport).
    unfold report in Hreport. simpl in Hreport. rewrite Hcell in Hreport.
    injection Hreport as <-.
    rewrite Hstdout. apply elem_of_app. left. by eapply list_elem_of_lookup_2.
Qed.

(** X6. Under every schedule the statements [process_data] sends are among
    the lookups the records ask for, each at most once: for a record, its
    [GID_QUERY] with its [input_gid] and its [EID_QUERY] with its
    [input_eid], and only for a field that is present and not empty.  No
    other statement is sent, and never more than two per record. *)
Theorem statements_sent_by_process_data max_workers sched
    (self : DataProcessor R Wr) rows :
  1 ≤ max_workers → read_rows (reader self) = inl rows →
  ∃ out calls,
    process_data max_workers sched self = Some out
    ∧ issued (end_db out) = issued (db self) ++ calls
    ∧ calls ⊆+ concat (lookups_of <$> rows)
    ∧ length calls ≤ 2 * length rows.
Proof.
  intros HW Hread.
  destruct (process_data_stages max_workers sched self rows HW Hread)
    as (out & data & errors & Hout & (calls & rest & _ & Hissued & Hperm) & _).
  simpl in Hissued. exists out, calls. split; [done|]. split; [done|].
  assert (calls ⊆+ concat (lookups_of <$> rows)) as Hsub.
  { rewrite <-Hperm. by apply submseteq_inserts_r. }
  split; [done|].
  etrans; [by apply submseteq_length | apply lookups_length].
Qed.

End Process_data_more.

Lemma rows_after_process_data_witness :
  1 ≤ MAX_WORKERS
  ∧ read_rows (ICSVReader := RowsReader) [row_a; row_boom; row_b]
    = inl [row_a; row_boom; row_b]
  ∧ ∃ out, sample_run MAX_WORKERS racy_schedule [row_a; row_boom; row_b] = Some out
      ∧ (∀ i d, [row_a; row_boom; row_b] !! i = Some d → i ∈ results out →
           ∃ gid eid,
             end_rows out !! i
             = Some (dict_set (Some "eid") eid (dict_set (Some "gid") gid d)))
      ∧ (∀ i d e, [row_a; row_boom; row_b] !! i = Some d → (i, e) ∈ failures out →
           end_rows out !! i = Some d ∧ Error_processing_row d e ∈ stdout out).
Proof.
  split; [unfold MAX_WORKERS; lia|]. split; [reflexivity|].
  apply (@rows_after_process_data sample_db (list dict) (option csv_file)
           RowsReader (@CSVFileWriter sample_str) MAX_WORKERS racy_schedule
           (sample_processor [row_a; row_boom; row_b]) [row_a; row_boom; row_b]);
    [unfold MAX_WORKERS; lia | reflexivity].
Defined.

Lemma statements_sent_by_process_data_witness :
  1 ≤ MAX_WORKERS
  ∧ read_rows (ICSVReader := RowsReader) [row_a; row_boom; row_none]
    = inl [row_a; row_boom; row_none]
  ∧ ∃ out calls,
      sample_run MAX_WORKERS racy_schedule [row_a; row_boom; row_none] = Some out
      ∧ issued (end_db out) = issued fresh_connection ++ calls
      ∧ calls ⊆+ concat (lookups_of <$> [row_a; row_boom; row_none])
      ∧ length calls ≤ 2 * 3.
Proof.
  split; [unfold MAX_WORKERS; lia|]. split; [reflexivity|].
  apply (@statements_sent_by_process_data sample_db (list dict) (option csv_file)
           RowsReader (@CSVFileWriter sample_str) MAX_WORKERS racy_schedule
           (sample_processor [row_a; row_boom; row_none]) [row_a; row_boom; row_none]);
    [unfold MAX_WORKERS; lia | reflexivity].
Defined.

(** ** One worker *)

Lemma filter_Forall_not {A} (P : A → Prop) `{!∀ x, Decision (P x)} (l : list A) :
  Forall (λ x, ¬ P x) l → filter P l = [].
Proof.
  induction 1 as [|x l Hx _ IH]; [done|].
  by rewrite filter_cons_False, IH.
Qed.

Section One_worker.
Context {DB : Database}.

Lemma run_step {A} (p : prog A) (w : world) :
  run p w =
  match step_prog p w with
  | (w1, inl p') => run p' w1
  | (w1, inr o) => (w1, o)
  end.
Proof.
  destruct p as [a|row k cont|row k v cont|q x cont|cont]; simpl.
  - done.
  - by destruct (rows_of w !! row).
  - by destruct (rows_of w !! row).
  - by destruct (cursor_execute (db_of w) q x) as [c' [e|]].
  - by destruct (cursor_fetchone (db_of w)) as [c' [r|e]].
Qed.

Lemma runnable_finished max_workers fs :
  Forall is_finished fs → runnable max_workers fs = [].
Proof.
  intros Hfin. unfold runnable.
  rewrite filter_Forall_not.
  - case_decide; [|done].
    destruct (list_find is_pending fs) as [[i f]|] eqn:Hfind; [|done].
    apply list_find_Some in Hfind as (Hi & Hp & _).
    eapply Forall_lookup_1 in Hfin; [|exact Hi]. by destruct f.
  - apply Forall_forall. intros i _. unfold running_at.
    destruct (fs !! i) as [f|] eqn:Hi; [|tauto].
    eapply Forall_lookup_1 in Hfin; [|exact Hi]. destruct f; simpl in *; tauto.
Qed.

Lemma run_pool_finished max_workers sched fuel (st : pool) :
  Forall is_finished (futures st) → run_pool max_workers sched fuel st = st.
Proof.
  intros Hfin. revert sched. induction fuel as [|fuel IH]; intros sched; simpl; [done|].
  unfold pool_step. rewrite runnable_finished by done. apply IH.
Qed.

(** With one worker the futures are: finished ones, the one at work or next
    in line, pending ones; only that one can move. *)
Lemma runnable_one_worker done f rest :
  Forall is_finished done → ¬ is_finished f → Forall is_pending rest →
  runnable 1 (done ++ f :: rest) = [length done].
Proof.
  intros Hdone Hf Hrest. unfold runnable.
  assert (∀ i, running_at (done ++ f :: rest) i ↔ (i = length done ∧ is_running f)) as Hrun.
  { intros i. unfold running_at.
    destruct (decide (i < length done)) as [Hlt|Hge].
    - rewrite lookup_app_l by done.
      destruct (lookup_lt_is_Some_2 done i Hlt) as [g Hg]. rewrite Hg.
      eapply Forall_lookup_1 in Hdone; [|exact Hg].
      split; [by destruct g | lia].
    - rewrite lookup_app_r by lia.
      destruct (i - length done) as [|j] eqn:Hj; simpl.
      + split; [intros; split; [lia|done] | tauto].
      + destruct (rest !! j) as [g|] eqn:Hg; [|split; [tauto|lia]].
        eapply Forall_lookup_1 in Hrest; [|exact Hg].
        split; [by destruct g | lia]. }
  assert (Forall (λ g, ¬ is_running g) done) as Hdone'.
  { eapply Forall_impl; [exact Hdone|]. intros g; destruct g; simpl; tauto. }
  assert (Forall (λ g, ¬ is_running g) rest) as Hrest'.
  { eapply Forall_impl; [exact Hrest|]. intros g; destruct g; simpl; tauto. }
  destruct f as [p|p|o]; [| |by destruct Hf].
  - rewrite filter_Forall_not.
    2:{ apply Forall_forall. intros i _. rewrite Hrun. by intros [_ []]. }
    assert (running_count (done ++ Pending p :: rest) = 0) as ->.
    { unfold running_count. rewrite filter_Forall_not; [done|].
      apply Forall_app. split; [done|]. by constructor. }
    rewrite decide_True by lia.
    assert (list_find is_pending (done ++ Pending p :: rest)
            = Some (length done, Pending p)) as ->; [|done].
    apply list_find_Some. split; [|split; [done|]].
    + by rewrite list_lookup_middle.
    + intros j g Hj Hlt. rewrite lookup_app_l in Hj by done.
      eapply Forall_lookup_1 in Hdone; [|exact Hj]. by destruct g.
  - assert (running_count (done ++ Running p :: rest) = 1) as ->.
    { unfold running_count. rewrite filter_app, filter_cons_True by done.
      by rewrite (filter_Forall_not _ done), (filter_Forall_not _ rest). }
    rewrite decide_False by lia. rewrite (right_id_L [] (++)).
    rewrite length_app. simpl.
    rewrite seq_app, filter_app. simpl. rewrite filter_cons_True by (by apply Hrun).
    rewrite !filter_Forall_not; [done| |].
    + apply Forall_forall. intros i Hi. apply elem_of_seq in Hi.
      rewrite Hrun. lia.
    + apply Forall_forall. intros i Hi. apply elem_of_seq in Hi.
      rewrite Hrun. lia.
Qed.

Lemma pool_step_one_worker pick w done f rest :
  Forall is_finished done → ¬ is_finished f → Forall is_pending rest →
  pool_step 1 pick (Pool w (done ++ f :: rest))
  = step_future (length done) (Pool w (done ++ f :: rest)).
Proof.
  intros Hdone Hf Hrest. unfold pool_step. cbn [futures].
  rewrite runnable_one_worker by done. cbn [length].
  by rewrite Nat.mod_1_r.
Qed.

Lemma insert_middle {A} (l1 l2 : list A) x y :
  <[length l1 := y]> (l1 ++ x :: l2) = l1 ++ y :: l2.
Proof. by rewrite insert_app_r_alt, Nat.sub_diag by lia. Qed.

(** The one worker runs a call to its end: the schedule has no say. *)
Lemma one_worker_running b (p : prog ref) (w : world) done rest sched fuel :
  within b p → b ≤ fuel → Forall is_finished done → Forall is_pending rest →
  ∃ sched' fuel',
    fuel ≤ fuel' + b
    ∧ run_pool 1 sched fuel (Pool w (done ++ Running p :: rest))
      = run_pool 1 sched' fuel'
          (Pool (run p w).1 (done ++ Finished (run p w).2 :: rest)).
Proof.
  revert p w sched fuel. induction b as [|b IH]; intros p w sched fuel Hp Hfuel Hdone Hrest;
    [done|].
  destruct fuel as [|fuel]; [lia|]. simpl.
  rewrite pool_step_one_worker by (done || tauto).
  unfold step_future. simpl. rewrite list_lookup_middle by done.
  rewrite (run_step p w).
  pose proof (step_prog_within b p w Hp) as Hstep.
  destruct (step_prog p w) as [w1 [p'|o]]; simpl in *.
  - rewrite insert_middle.
    destruct (IH p' w1 (tail sched) fuel Hstep ltac:(lia) Hdone Hrest)
      as (sched' & fuel' & Hle & ->).
    exists sched', fuel'. split; [lia|done].
  - rewrite insert_middle. exists (tail sched), fuel. split; [lia|done].
Qed.

Lemma one_worker_pending b (ps : list (prog ref)) (w : world) done sched fuel :
  Forall (within b) ps → S b * length ps ≤ fuel → Forall is_finished done →
  run_pool 1 sched fuel (Pool w (done ++ (Pending <$> ps)))
  = Pool (run_in_turn ps w).1 (done ++ (Finished <$> (run_in_turn ps w).2)).
Proof.
  intros Hps. revert w done sched fuel.
  induction Hps as [|p ps Hp _ IH]; intros w done sched fuel Hfuel Hdone.
  - simpl. rewrite run_pool_finished; [done|]. simpl.
    by rewrite (right_id_L [] (++)).
  - simpl in Hfuel. destruct fuel as [|fuel]; [lia|].
    assert (Forall is_pending (Pending <$> ps)) as Hpending.
    { apply Forall_fmap, Forall_true. by intros q. }
    rewrite fmap_cons. cbn [run_pool].
    rewrite pool_step_one_worker by (done || tauto).
    unfold step_future. simpl. rewrite list_lookup_middle by done.
    rewrite insert_middle.
    destruct (one_worker_running b p w done (Pending <$> ps) (tail sched) fuel
                Hp ltac:(lia) Hdone Hpending) as (sched' & fuel' & Hle & ->).
    rewrite (cons_middle (Finished _)), (assoc_L (++)).
    rewrite IH; [| lia | by apply Forall_app; split; [|by constructor]].
    destruct (run p w) as [w1 o]. simpl.
    destruct (run_in_turn ps w1) as [w2 os]. simpl.
    by rewrite <-(assoc_L (++)).
Qed.

Lemma submit_all_fmap rows :
  submit_all rows = Pending <$> (process_row <$> seq 0 (length rows)).
Proof.
  apply list_eq. intros i. rewrite submit_all_lookup, !list_lookup_fmap.
  destruct (decide (i < length rows)) as [Hlt|Hge].
  - rewrite lookup_seq_lt by done.
    by destruct (lookup_lt_is_Some_2 rows i Hlt) as [d ->].
  - rewrite lookup_seq_ge by lia. by rewrite lookup_ge_None_2 by lia.
Qed.

Lemma one_worker_pool sched rows (c : connection) :
  run_pool 1 sched (pool_fuel (length rows)) (Pool (World rows c) (submit_all rows))
  = Pool (run_in_turn (process_row <$> seq 0 (length rows)) (World rows c)).1
      (Finished <$> (run_in_turn (process_row <$> seq 0 (length rows)) (World rows c)).2).
Proof.
  rewrite submit_all_fmap.
  apply (one_worker_pending 9 _ _ []); [| |done].
  - apply Forall_fmap, Forall_true. intros i. apply process_row_within.
  - rewrite length_fmap, length_seq. unfold pool_fuel. lia.
Qed.

End One_worker.

Section One_worker_process_data.
Context {DB : Database} {R Wr : Type} `{!ICSVReader R, !ICSVWriter Wr}.

(** X7. With one worker [process_data] processes the records one after the
    other, in the order of the input, each call of [process_row] running
    alone from what the call before it has left; the schedule has no say in
    the row objects, the connection or the outcomes it ends with. *)
Theorem one_worker_runs_records_in_turn sched (self : DataProcessor R Wr) rows :
  read_rows (reader self) = inl rows →
  ∃ out, process_data 1 sched self = Some out
    ∧ World (end_rows out) (end_db out)
      = (run_in_turn (process_row <$> seq 0 (length rows)) (World rows (db self))).1
    ∧ end_futures out
      = Finished
        <$> (run_in_turn (process_row <$> seq 0 (length rows)) (World rows (db self))).2.
Proof.
  intros Hread.
  destruct (process_data_completes 1 sched self rows ltac:(lia) Hread)
    as (out & data & errors & Hout & Hfutures & _).
  exists out. split; [done|].
  rewrite (process_data_end_state 1 sched self rows out ltac:(lia) Hread Hout).
  rewrite Hfutures, one_worker_pool. done.
Qed.

End One_worker_process_data.

Lemma one_worker_runs_records_in_turn_witness :
  read_rows (ICSVReader := RowsReader) [row_a; row_boom; row_b]
  = inl [row_a; row_boom; row_b]
  ∧ ∃ out, sample_run 1 racy_schedule [row_a; row_boom; row_b] = Some out
      ∧ World (end_rows out) (end_db out)
        = (run_in_turn (process_row <$> seq 0 3)
             (World [row_a; row_boom; row_b] fresh_connection)).1
      ∧ end_futures out
        = Finished
          <$> (run_in_turn (process_row <$> seq 0 3)
                 (World [row_a; row_boom; row_b] fresh_connection)).2.
Proof.
  split; [reflexivity|].
  apply (@one_worker_runs_records_in_turn sample_db (list dict) (option csv_file)
           RowsReader (@CSVFileWriter sample_str) racy_schedule
           (sample_processor [row_a; row_boom; row_b]) [row_a; row_boom; row_b]).
  reflexivity.
Defined.

(** ** The rows handed to the writer and the failures reported *)







Section Process_data_outcomes.
Context {DB : Database} {R Wr : Type} `{!ICSVReader R, !ICSVWriter Wr}.



End Process_data_outcomes.


(** In this run the call for [row_boom] raises: the row of [row_a] alone is
    written, and the one line printed is the report of the failure. *)
Example failed_record_run :
  ∃ out,
    sample_run MAX_WORKERS [] [row_a; row_boom] = Some out
    ∧ end_futures out !! 1 = Some (Finished (Raised (DatabaseError "boom")))
    ∧ results out = [0]
    ∧ failures out = [(1, DatabaseError "boom")]
    ∧ stdout out = [Error_processing_row row_boom (DatabaseError "boom")]
    ∧ end_writer out
      = Some [["input_gid"; "input_eid"; "gid"; "eid"]; ["a"; ""; "1"; ""]].
Proof. eexists. split; [vm_compute; reflexivity|]. by vm_compute. Qed.


(** In this run the call for the third record has returned after ten steps,
    when the calls for the first two are still running, and the call for the
    first returns seven steps later; the row of the first record is handed to
    the writer before the row of the third all the same. *)
Example last_first_run :
  (λ f, bool_decide (is_finished f))
    <$> futures (run_pool MAX_WORKERS last_first_schedule 10
                   (sample_pool [row_a; row_boom; row_b]))
  = [false; false; true]
  ∧ (λ f, bool_decide (is_finished f))
      <$> futures (run_pool MAX_WORKERS last_first_schedule 17
                     (sample_pool [row_a; row_boom; row_b]))
    = [true; false; true]
  ∧ ∃ out,
      sample_run MAX_WORKERS last_first_schedule [row_a; row_boom; row_b] = Some out
      ∧ results out = [0; 2]
      ∧ failures out = [(1, DatabaseError "boom")]
      ∧ end_writer out
        = Some [["input_gid"; "input_eid"; "gid"; "eid"];
                ["a"; ""; "1"; ""]; ["b"; ""; "2"; ""]].
Proof.
  split; [by vm_compute|]. split; [by vm_compute|].
  eexists. split; [vm_compute; reflexivity|]. by vm_compute.
Qed.

(** ** The columns from the input to the output *)

Lemma keys_dict_set k v d : keys (dict_set k v d) = add_key (keys d) k.
Proof.
  unfold add_key. destruct (decide (k ∈ keys d)).
  - by apply keys_dict_set_old.
  - by apply keys_dict_set_new.
Qed.

Lemma keys_foldl_set (l : list (key * pyval)) d :
  keys (foldl (λ d kv, dict_set kv.1 kv.2 d) d l) = foldl add_key (keys d) l.*1.
Proof.
  revert d. induction l as [|[k v] l IH]; intros d; simpl; [done|].
  by rewrite IH, keys_dict_set.
Qed.

Lemma DictReader_row_keys header line :
  length line ≤ length header →
  keys (DictReader_row header line) = header_keys header.
Proof.
  intros Hlen. unfold DictReader_row, header_keys.
  rewrite decide_False by lia.
  assert (keys (dict_of_pairs (zip (Some <$> header) (PStr <$> line)))
          = foldl add_key [] (Some <$> take (length line) header)) as Hzip.
  { unfold dict_of_pairs. rewrite keys_foldl_set. simpl. f_equal.
    rewrite <-(zip_with_take_l _ (Some <$> header) (PStr <$> line)).
    rewrite length_fmap, <-fmap_take.
    apply fst_zip. rewrite !length_fmap, length_take. lia. }
  rewrite <-(take_drop (length line) header) at 3. rewrite fmap_app, foldl_app.
  rewrite <-Hzip. case_decide.
  - rewrite <-(foldl_fmap (λ d kv, dict_set kv.1 kv.2 d) _ _ (λ k, (Some k, PNone))).
    rewrite keys_foldl_set. f_equal. by rewrite <-list_fmap_compose.
  - by rewrite drop_ge by lia.
Qed.

(** X8. When no line of the file is longer than its header, all the rows
    [read_rows] yields have the same columns in the same order: the names of
    the header, each once, where it first comes in the header. *)
Theorem read_rows_same_columns header lines :
  Forall (λ line, length line ≤ length header) lines →
  ∃ rows,
    read_rows (ICSVReader := CSVFileReader) (Some (header :: lines)) = inl rows
    ∧ Forall (λ d, keys d = header_keys header) rows.
Proof.
  intros Hlines. eexists. split; [reflexivity|]. simpl.
  apply Forall_fmap, Forall_forall. intros line Hline.
  apply list_elem_of_filter in Hline as [_ Hline].
  apply DictReader_row_keys. by eapply Forall_forall in Hlines.
Qed.

Lemma read_rows_same_columns_witness :
  Forall (λ line, length line ≤ length ["id"; "input_gid"; "id"])
    [["1"; "a"; "2"]; ["3"]]
  ∧ ∃ rows,
      read_rows (ICSVReader := CSVFileReader)
        (Some [["id"; "input_gid"; "id"]; ["1"; "a"; "2"]; ["3"]]) = inl rows
      ∧ Forall (λ d, keys d = [Some "id"; Some "input_gid"]) rows.
Proof.
  assert (Forall (λ line, length line ≤ length ["id"; "input_gid"; "id"])
            [["1"; "a"; "2"]; ["3"]]) as Hlines.
  { repeat constructor; simpl; lia. }
  split; [exact Hlines|].
  apply (read_rows_same_columns ["id"; "input_gid"; "id"] [["1"; "a"; "2"]; ["3"]] Hlines).
Defined.

(** ** process_data with CSVFileWriter *)

Lemma writerows_extends `{!PyStr} fieldnames data written f e :
  DictWriter_writerows fieldnames data written = (f, e) → ∃ more, f = written ++ more.
Proof.
  revert written. induction data as [|d data IH]; intros written; simpl.
  - intros [= <- _]. exists []. by rewrite (right_id_L [] (++)).
  - destruct (DictWriter_dict_to_list fieldnames d) as [fields|x].
    + intros Hrest. apply IH in Hrest as [more ->].
      exists (fields :: more). by rewrite <-(assoc_L (++)).
    + intros [= <- _]. exists []. by rewrite (right_id_L [] (++)).
Qed.

Lemma report_is_error rows failure msg :
  report rows failure = Some msg → msg ≠ No_data_to_write.
Proof.
  unfold report. destruct (rows !! failure.1); simpl; [|done]. by intros [= <-].
Qed.

Section To_the_file.
Context {DB : Database} {R : Type} `{!ICSVReader R, !PyStr}.

(** The row of a record in [results]: the record with [gid] and [eid] set. *)
Lemma result_row_enriched before rows (out : completed (option csv_file)) data :
  stage_inv rows before
    (Pool (World (end_rows out) (end_db out)) (end_futures out)) →
  owned_from 0 (end_futures out) →
  fan_in 0 (end_futures out) = Some (results out, failures out) →
  mapM (λ row, end_rows out !! row) (results out) = Some data →
  Forall (λ d', ∃ d gid eid,
            d ∈ rows
            ∧ d' = dict_set (Some "eid") eid (dict_set (Some "gid") gid d)) data.
Proof.
  intros (calls & rest & Hpool & _) Hown Hfan Hdata. simpl in Hpool.
  apply mapM_Some_1 in Hdata. apply Forall_forall. intros d' Hd'.
  apply list_elem_of_lookup in Hd' as [k Hk].
  destruct (Forall2_lookup_r _ _ _ _ _ Hdata Hk) as (i & Hi & Hrow).
  apply list_elem_of_lookup_2 in Hi.
  destruct (fan_in_result_inv _ _ _ _ _ Hfan Hi) as (j & Hj).
  pose proof (Hown j _ Hj) as Hij. simpl in Hij. subst j.
  destruct (pool_stage_split _ _ _ _ _ _ Hpool Hj)
    as (d & ph & l & _ & _ & Hd & Hcell & Hstage & _).
  destruct Hstage as [(gid & eid & ->) _]. simpl in Hcell.
  rewrite Hcell in Hrow. injection Hrow as <-.
  exists d, gid, eid. split; [by eapply list_elem_of_lookup_2 | done].
Qed.

(** X9. When all the records of the input have the same columns,
    [process_data] with [CSVFileWriter] raises nothing, under every schedule:
    every row it writes has the columns of the first.  Unless no record
    succeeded, the destination then holds the header, the columns of the
    input followed by ["gid"] and ["eid"] (for as far as they were not
    columns of the input), and one line per record in [results]. *)
Theorem same_columns_never_raise max_workers sched
    (self : DataProcessor R (option csv_file)) rows ks :
  1 ≤ max_workers → read_rows (reader self) = inl rows →
  Forall (λ d, keys d = ks) rows →
  ∃ out, process_data (ICSVWriter0 := CSVFileWriter) max_workers sched self = Some out
    ∧ raised out = None
    ∧ (results out ≠ [] →
       ∃ lines,
         end_writer out = Some ((csv_key <$> enriched_keys ks) :: lines)
         ∧ length lines = length (results out)).
Proof.
  intros HW Hread Hkeys.
  destruct (process_data_stages (ICSVWriter0 := CSVFileWriter)
              max_workers sched self rows HW Hread)
    as (out & data & errors & Hout & Hstage & Hown & Hfan & Hdata & _ & _
        & Hwriter & Hraised).
  pose proof (result_row_enriched _ rows out data Hstage Hown Hfan Hdata) as Henr.
  assert (Forall (λ d', keys d' = enriched_keys ks) data) as Hsame.
  { eapply Forall_impl; [exact Henr|]. intros d' (d & gid & eid & Hd & ->).
    rewrite keys_enriched. f_equal. by eapply Forall_forall in Hkeys. }
  pose proof (length_mapM _ _ _ Hdata) as Hlen.
  exists out. split; [done|].
  destruct data as [|first rest].
  - split; [by rewrite Hraised|]. intros Hne.
    destruct (results out); [done | simpl in Hlen; lia].
  - assert (write_rows (ICSVWriter := CSVFileWriter) (first :: rest) (writer self)
            = (Some ((csv_key <$> keys first)
                       :: (row_fields (keys first) <$> first :: rest)), [], None))
      as Hwrite.
    { unfold write_rows, CSVFileWriter. rewrite writerows_fits; [done|].
      pose proof (Forall_inv Hsame) as Hfirst.
      eapply Forall_impl; [exact Hsame|]. intros d' Hd'.
      unfold fits. by rewrite Hd', Hfirst. }
    rewrite Hwrite in Hwriter, Hraised. cbn [fst snd] in Hwriter, Hraised.
    split; [done|]. intros _. eexists. rewrite Hwriter.
    rewrite (Forall_inv Hsame).
    split; [reflexivity|]. by rewrite length_fmap.
Qed.

(** X10. When no record has succeeded [process_data] leaves the destination
    as it was, prints, last, that there is nothing to write, and raises
    nothing.  When a record has succeeded the destination is replaced: it
    holds a header at least, and that line is not printed. *)
Theorem destination_after_process_data max_workers sched
    (self : DataProcessor R (option csv_file)) rows :
  1 ≤ max_workers → read_rows (reader self) = inl rows →
  ∃ out, process_data (ICSVWriter0 := CSVFileWriter) max_workers sched self = Some out
    ∧ (results out = [] →
       end_writer out = writer self
       ∧ raised out = None
       ∧ last (stdout out) = Some No_data_to_write)
    ∧ (results out ≠ [] →
       (∃ header lines, end_writer out = Some (header :: lines))
       ∧ No_data_to_write ∉ stdout out).
Proof.
  intros HW Hread.
  destruct (process_data_completes (ICSVWriter0 := CSVFileWriter)
              max_workers sched self rows HW Hread)
    as (out & data & errors & Hout & _ & _ & _ & _ & _ & _ & Hdata & Herrors
        & Hstdout & Hwriter & Hraised).
  pose proof (length_mapM _ _ _ Hdata) as Hlen.
  exists out. split; [done|]. split.
  - intros Hnone. rewrite Hnone in Hlen. destruct data; [|done].
    rewrite Hwriter, Hraised, Hstdout. simpl.
    by rewrite last_snoc.
  - intros Hsome.
    destruct data as [|first rest]; [destruct (results out); done|].
    unfold write_rows, CSVFileWriter in Hwriter, Hstdout.
    destruct (DictWriter_writerows (keys first) (first :: rest) [csv_key <$> keys first])
      as [written e] eqn:Hw.
    apply writerows_extends in Hw as [more ->]. simpl in *.
    split; [by eauto|].
    rewrite Hstdout, (right_id_L [] (++)). intros Hin.
    apply mapM_Some_1 in Herrors.
    apply list_elem_of_lookup in Hin as [k Hk].
    destruct (Forall2_lookup_r _ _ _ _ _ Herrors Hk) as (failure & _ & Hreport).
    by apply report_is_error in Hreport.
Qed.

End To_the_file.

Lemma same_columns_never_raise_witness :
  1 ≤ MAX_WORKERS
  ∧ read_rows (ICSVReader := RowsReader) [row_a; row_boom; row_b]
    = inl [row_a; row_boom; row_b]
  ∧ Forall (λ d, keys d = [Some "input_gid"; Some "input_eid"]) [row_a; row_boom; row_b]
  ∧ ∃ out, sample_run MAX_WORKERS racy_schedule [row_a; row_boom; row_b] = Some out
      ∧ raised out = None
      ∧ (results out ≠ [] →
         ∃ lines,
           end_writer out
           = Some (["input_gid"; "input_eid"; "gid"; "eid"] :: lines)
           ∧ length lines = length (results out)).
Proof.
  assert (Forall (λ d, keys d = [Some "input_gid"; Some "input_eid"])
            [row_a; row_boom; row_b]) as Hkeys by (by repeat constructor).
  split; [unfold MAX_WORKERS; lia|]. split; [reflexivity|]. split; [exact Hkeys|].
  apply (@same_columns_never_raise sample_db (list dict) RowsReader sample_str
           MAX_WORKERS racy_schedule (sample_processor [row_a; row_boom; row_b])
           [row_a; row_boom; row_b] [Some "input_gid"; Some "input_eid"]);
    [unfold MAX_WORKERS; lia | reflexivity | exact Hkeys].
Defined.

Lemma destination_after_process_data_witness :
  1 ≤ MAX_WORKERS
  ∧ read_rows (ICSVReader := RowsReader) [row_boom] = inl [row_boom]
  ∧ ∃ out, sample_run MAX_WORKERS [] [row_boom] = Some out
      ∧ (results out = [] →
         end_writer out = None
         ∧ raised out = None
         ∧ last (stdout out) = Some No_data_to_write)
      ∧ (results out ≠ [] →
         (∃ header lines, end_writer out = Some (header :: lines))
         ∧ No_data_to_write ∉ stdout out).
Proof.
  split; [unfold MAX_WORKERS; lia|]. split; [reflexivity|].
  apply (@destination_after_process_data sample_db (list dict) RowsReader sample_str
           MAX_WORKERS [] (sample_processor [row_boom]) [row_boom]);
    [unfold MAX_WORKERS; lia | reflexivity].
Defined.

(** ** Every lookup once *)

Lemma pool_stage_all_returned rows cells fs rest :
  pool_stage rows cells fs rest →
  Forall (λ f, ∃ row, f = Finished (Returned row)) fs → rest = [].
Proof.
  induction 1 as [|d ph l f rows cells fs rest Hf _ IH]; [done|].
  intros Hall. apply Forall_cons_1 in Hall as [[row ->] Hall].
  destruct Hf as [_ ->]. by rewrite IH.
Qed.

Lemma fan_in_no_failure i fs results :
  fan_in i fs = Some (results, []) →
  Forall (λ f, ∃ row, f = Finished (Returned row)) fs.
Proof.
  revert i results. induction fs as [|f fs IH]; intros i results H; [constructor|].
  apply fan_in_cons in H
    as (results' & failures' & Hrest & [(row & -> & -> & <-)|(e & _ & _ & [=])]).
  constructor; [by exists row | by eapply IH].
Qed.

Section Every_lookup_once.
Context {DB : Database} {R Wr : Type} `{!ICSVReader R, !ICSVWriter Wr}.

(** X11. When no record has failed, the statements [process_data] has sent
    are, in some order, exactly the lookups the records ask for: each source
    field that is present and not empty has been looked up once, under every
    schedule. *)
Theorem no_failure_every_lookup_once max_workers sched
    (self : DataProcessor R Wr) rows out :
  1 ≤ max_workers → read_rows (reader self) = inl rows →
  process_data max_workers sched self = Some out →
  failures out = [] →
  ∃ calls,
    issued (end_db out) = issued (db self) ++ calls
    ∧ calls ≡ₚ concat (lookups_of <$> rows).
Proof.
  intros HW Hread Hout Hnone.
  destruct (process_data_stages max_workers sched self rows HW Hread)
    as (out' & data & errors & Hout' & (calls & rest & Hpool & Hissued & Hperm)
        & _ & Hfan & _).
  rewrite Hout in Hout'. injection Hout' as <-. simpl in *.
  rewrite Hnone in Hfan.
  apply fan_in_no_failure in Hfan.
  rewrite (pool_stage_all_returned _ _ _ _ Hpool Hfan), (right_id_L [] (++)) in Hperm.
  by exists calls.
Qed.

End Every_lookup_once.

Lemma no_failure_every_lookup_once_witness :
  ∃ out,
    1 ≤ MAX_WORKERS
    ∧ read_rows (ICSVReader := RowsReader) [row_a; row_b] = inl [row_a; row_b]
    ∧ sample_run MAX_WORKERS racy_schedule [row_a; row_b] = Some out
    ∧ failures out = []
    ∧ ∃ calls,
        issued (end_db out) = issued fresh_connection ++ calls
        ∧ calls ≡ₚ [(GID_QUERY, PStr "a"); (GID_QUERY, PStr "b")].
Proof.
  eexists. split; [unfold MAX_WORKERS; lia|]. split; [reflexivity|].
  split; [vm_compute; reflexivity|]. split; [reflexivity|].
  apply (@no_failure_every_lookup_once sample_db (list dict) (option csv_file)
           RowsReader (@CSVFileWriter sample_str) MAX_WORKERS racy_schedule
           (sample_processor [row_a; row_b]) [row_a; row_b] _);
    [unfold MAX_WORKERS; lia | reflexivity | vm_compute; reflexivity | reflexivity].
Defined.

(** ** The program *)

Section Main.
Context {DB : Database} `{!PyStr}.

(** X12. A run with a connection comes to its end whatever the input file,
    the store and the schedule, and closes the cursor and then the connection,
    once, also when [process_data] raises.  It prints that processing is
    complete exactly when nothing was raised.  Without an input file it
    raises [FileNotFoundError], prints nothing, sends no statement and leaves
    the output file alone. *)
Theorem main_closes_the_connection sched (c : connection) input output :
  ∃ r, main sched c input output = Some r
    ∧ close_calls r = [Cursor_close; Connection_close]
    ∧ (Processing_complete OUTPUT_CSV_FILE ∈ printed r ↔ main_raised r = None)
    ∧ (input = None →
       main_raised r = Some FileNotFoundError
       ∧ printed r = [] ∧ output_file r = output ∧ database r = c).
Proof.
  assert (∀ out : completed (option csv_file),
            Processing_complete OUTPUT_CSV_FILE
            ∈ (Line <$> stdout out)
              ++ match raised out with
                 | None => [Processing_complete OUTPUT_CSV_FILE]
                 | Some _ => []
                 end
            ↔ raised out = None) as Hline.
  { intros out. rewrite elem_of_app. split.
    - intros [Hin|Hin].
      + apply list_elem_of_fmap in Hin as (m & [=] & _).
      + destruct (raised out); [by apply elem_of_nil in Hin | done].
    - intros ->. right. left. }
  unfold main. destruct input as [f|].
  - destruct (process_data_completes (ICSVReader0 := CSVFileReader)
                (ICSVWriter0 := CSVFileWriter) MAX_WORKERS sched
                {| db := c; reader := Some f; writer := output |} (DictReader f)
                ltac:(unfold MAX_WORKERS; lia) eq_refl)
      as (out & _ & _ & -> & _).
    eexists. split; [reflexivity|]. simpl. split; [done|]. split; [apply Hline|done].
  - eexists. split; [reflexivity|]. simpl. split; [done|]. split; [|done].
    split; [intros Hin; by apply elem_of_nil in Hin | done].
Qed.

End Main.

(** The run of the specification's first scenario: three records, the first
    with both fields found, the second with a key that is not found, the
    third with no field; all three are written. *)
Example main_three_records :
  @main sample_db sample_str [] fresh_connection
    (Some [["input_gid"; "input_eid"]; ["a"; "b"]; ["zzz"; ""]; [""; ""]]) None
  = Some (Main_end
            [Processing_complete OUTPUT_CSV_FILE]
            (Some [["input_gid"; "input_eid"; "gid"; "eid"];
                   ["a"; "b"; "1"; "2"]; ["zzz"; ""; ""; ""]; [""; ""; ""; ""]])
            (@Connection sample_db tt (Some [])
               [(GID_QUERY, PStr "a"); (EID_QUERY, PStr "b"); (GID_QUERY, PStr "zzz")])
            [Cursor_close; Connection_close]
            None).
Proof. vm_compute. reflexivity. Qed.
